(** * field-form [valueUtil]: path-addressed access to a nested form store

    A shallow embedding of [src/utils/valueUtil.ts] and [src/utils/typeUtil.ts]
    and the properties of [getValue], [setValue], [setValues],
    [cloneByNamePathList], [containsNamePath], [matchNamePath], [isSimilar],
    [defaultGetValueFromEvent] and [move].

    Modelling choices.
    - JavaScript values are the type [val]; objects, arrays and functions are
      references into a heap, so that [===] on them is identity and the
      in-place writes of [setValue] and [setValues] are visible through every
      alias.  The heap only grows (there is no deallocation in the language).
    - Numbers are integers ([Z]): path segments are indices, and the
      floating-point corners of [number] (NaN, fractions) are left out.  A
      number names the key of its decimal spelling, which is the key of the
      language for the integers a [number] holds exactly; statements that
      depend on the key of a number are made for those ([exact_path]).
    - An object carries its prototype kind, whether it is a mobx observable,
      and its own enumerable data properties in insertion order.  Members
      inherited from the built-in prototypes and the [length] of arrays are
      not store data and are not modelled; reading one reads an absent
      property, and [in] sees the own properties.  Statements about what a
      result does not hold are therefore made on own properties
      ([own_at]).
    - A write is the write of an own data property.  This is what the
      language does on a plain object and on an array for every key but
      [length] (which resizes the array or throws a RangeError) and
      [__proto__]; statements about writes into the objects of a store are
      made for such writes ([plain_walk]).
    - [lodash.set] is modelled after lodash 4.17: the key is cast to a path
      ([castPath], [isKey], [stringToPath]) and the path is written by
      [baseSet] and [assignValue].
    - mobx's [action] only batches notifications and is the identity here;
      mobx's [set] and [keys] act on the literal key of an observable.  The
      copy that a deep observable makes of an array or a plain object
      written into it is not modelled, and nothing is stated of what an
      observable store holds after a write.
    - A call that may throw returns an [option], [None] being the TypeError
      of indexing null or undefined.  [internalSetValues] recurses on the
      depth of the patch and takes fuel; its results are stated for any
      fuel above that depth. *)

From Stdlib Require Import ZArith Lia Ascii String.
From stdpp Require Import base decidable option list strings numbers pretty sorting.

Local Open Scope string_scope.
Local Open Scope list_scope.

(** ** Values and the heap *)

Abbreviation loc := nat (only parsing).

Inductive val :=
| VUndefined
| VNull
| VBool (b : bool)
| VNum (n : Z)
| VStr (s : string)
| VFun (l : loc)
| VObj (l : loc).

#[global] Instance val_eq_dec : EqDecision val.
Proof. solve_decision. Defined.

Inductive proto := ObjectPrototype | ArrayPrototype | OtherPrototype.

#[global] Instance proto_eq_dec : EqDecision proto.
Proof. solve_decision. Defined.

Record object := Object {
  obj_proto : proto;
  obj_observable : bool;
  obj_props : list (string * val)
}.

Abbreviation heap := (list object) (only parsing).

(** A plain object literal and an array literal. *)
Definition plain (props : list (string * val)) : object :=
  Object ObjectPrototype false props.

Definition indexed (vs : list val) : list (string * val) :=
  imap (fun i v => (pretty (Z.of_nat i), v)) vs.

Definition array (vs : list val) : object :=
  Object ArrayPrototype false (indexed vs).

Definition alloc (h : heap) (o : object) : heap * loc := (h ++ [o], length h).

(** ** The operators of the language that the code uses *)

Inductive jstype := TUndefined | TObject | TBoolean | TNumber | TString | TFunction.

#[global] Instance jstype_eq_dec : EqDecision jstype.
Proof. solve_decision. Defined.

Definition typeof (v : val) : jstype :=
  match v with
  | VUndefined => TUndefined
  | VNull => TObject
  | VBool _ => TBoolean
  | VNum _ => TNumber
  | VStr _ => TString
  | VFun _ => TFunction
  | VObj _ => TObject
  end.

(** ToBoolean: [!v] is [negb (truthy v)]. *)
Definition truthy (v : val) : bool :=
  match v with
  | VUndefined | VNull => false
  | VBool b => b
  | VNum n => negb (n =? 0)%Z
  | VStr s => negb (bool_decide (s = ""))
  | VFun _ | VObj _ => true
  end.

(** [v === null || v === undefined] *)
Definition nullish (v : val) : bool :=
  match v with
  | VUndefined | VNull => true
  | _ => false
  end.

(** [a === b] *)
Definition strict_eq (a b : val) : bool := bool_decide (a = b).

(** ** Property keys *)

(** A path segment, [string | number]. *)
Inductive segment := Num (n : Z) | Str (s : string).

#[global] Instance segment_eq_dec : EqDecision segment.
Proof. solve_decision. Defined.

(** ToPropertyKey: a number names the property of its decimal spelling. *)
Definition toKey (s : segment) : string :=
  match s with
  | Num n => pretty n
  | Str k => k
  end.

Definition digit (c : ascii) : option N :=
  let n := N_of_ascii c in
  if ((48 <=? n) && (n <=? 57))%N then Some (n - 48)%N else None.

Fixpoint digits (acc : N) (s : string) : option N :=
  match s with
  | EmptyString => Some acc
  | String c r =>
      match digit c with
      | Some d => digits (10 * acc + d)%N r
      | None => None
      end
  end.

(** lodash's reIsUint: [0], or a digit string with no leading zero; the
    number it spells. *)
Definition parse_uint (s : string) : option N :=
  match s with
  | EmptyString => None
  | String "0" EmptyString => Some 0%N
  | String "0" _ => None
  | _ => digits 0 s
  end.

(** An array index: a canonical numeric string below [2^32 - 1]. *)
Definition array_index (k : string) : option N :=
  match parse_uint k with
  | Some n => if (n <? 4294967295)%N then Some n else None
  | None => None
  end.

(** ** Own properties *)

Fixpoint assoc {V} (k : string) (props : list (string * V)) : option V :=
  match props with
  | [] => None
  | (k', v) :: rest => if decide (k = k') then Some v else assoc k rest
  end.

(** [o[k] = v] on the property list: an existing key keeps its place, a new
    one goes last. *)
Fixpoint assoc_set {V} (k : string) (v : V) (props : list (string * V))
  : list (string * V) :=
  match props with
  | [] => [(k, v)]
  | (k', v') :: rest =>
      if decide (k = k') then (k', v) :: rest else (k', v') :: assoc_set k v rest
  end.

Definition index_le (a b : N * string) : Prop := (a.1 <= b.1)%N.

#[global] Instance index_le_dec : RelDecision index_le.
Proof. intros a b. unfold index_le. apply _. Defined.

(** OrdinaryOwnPropertyKeys: array indices in ascending order, then the other
    keys in insertion order. *)
Definition ordered_keys (ks : list string) : list string :=
  (merge_sort index_le
     (omap (fun k => match array_index k with
                     | Some n => Some (n, k)
                     | None => None
                     end) ks)).*2
  ++ filter (fun k => array_index k = None) ks.

Definition string_indices (s : string) : list string :=
  (fun i => pretty (Z.of_nat i)) <$> seq 0 (String.length s).

(** [Object.keys(v)] for a value that is not null or undefined. *)
Definition own_keys (h : heap) (v : val) : list string :=
  match v with
  | VObj l | VFun l =>
      match h !! l with
      | Some o => ordered_keys (obj_props o).*1
      | None => []
      end
  | VStr s => string_indices s
  | _ => []
  end.

Definition own_prop (h : heap) (l : loc) (k : string) : option val :=
  match h !! l with
  | Some o => assoc k (obj_props o)
  | None => None
  end.

(** The members of a primitive string: its characters and its length. *)
Definition string_member (s : string) (k : string) : option val :=
  match array_index k with
  | Some i =>
      match String.get (N.to_nat i) s with
      | Some c => Some (VStr (String c EmptyString))
      | None => None
      end
  | None =>
      if decide (k = "length") then Some (VNum (Z.of_nat (String.length s)))
      else None
  end.

Definition find_prop (h : heap) (base : val) (k : string) : option val :=
  match base with
  | VObj l | VFun l => own_prop h l k
  | VStr s => string_member s k
  | _ => None
  end.

(** [base[k]] for a base that is not null or undefined. *)
Definition prop (h : heap) (base : val) (k : string) : val :=
  default VUndefined (find_prop h base k).

(** [k in Object(base)] *)
Definition has_prop (h : heap) (base : val) (k : string) : bool :=
  bool_decide (is_Some (find_prop h base k)).

(** [base[s]]: a TypeError ([None]) on null and undefined. *)
Definition get_prop (h : heap) (base : val) (s : segment) : option val :=
  if nullish base then None else Some (prop h base (toKey s)).

(** [o[k] = v] on the object at [l]. *)
Definition put_prop (h : heap) (l : loc) (k : string) (v : val) : heap :=
  alter (fun o => Object (obj_proto o) (obj_observable o)
                         (assoc_set k v (obj_props o))) l h.

(** [o[k] = v] for any base: a write to a primitive is dropped. *)
Definition assign (h : heap) (base : val) (k : string) (v : val) : heap :=
  match base with
  | VObj l | VFun l => put_prop h l k v
  | _ => h
  end.

(** ** lodash [set], after lodash 4.17 *)

Module Lodash.

Definition in_range (lo hi : N) (c : ascii) : bool :=
  let n := N_of_ascii c in ((lo <=? n) && (n <=? hi))%N.

Definition is_digit (c : ascii) : bool := in_range 48 57 c.

(** The class [\w]: letters, digits and the underscore. *)
Definition word_char (c : ascii) : bool :=
  is_digit c || in_range 65 90 c || in_range 97 122 c || bool_decide (c = "_"%char).

Fixpoint all_chars (p : ascii -> bool) (s : string) : bool :=
  match s with
  | EmptyString => true
  | String c r => p c && all_chars p r
  end.

Fixpoint has_char (c : ascii) (s : string) : bool :=
  match s with
  | EmptyString => false
  | String c' r => bool_decide (c = c') || has_char c r
  end.

(** reIsPlainProp: the whole string is made of word characters. *)
Definition isPlainProp (s : string) : bool := all_chars word_char s.

(** Some "[" comes before some "]". *)
Fixpoint bracket_pair (opened : bool) (s : string) : bool :=
  match s with
  | EmptyString => false
  | String c r =>
      if bool_decide (c = "]"%char) then opened || bracket_pair opened r
      else if bool_decide (c = "["%char) then bracket_pair true r
      else bracket_pair opened r
  end.

(** reIsDeepProp: a dot, or an opening bracket, a bracket-free or quoted
    text and a closing bracket.  Between the last "[" before a "]" there is
    no bracket, so the expression matches as soon as a "[" comes before a
    "]". *)
Definition isDeepProp (s : string) : bool :=
  has_char "."%char s || bracket_pair false s.

Definition isKey (h : heap) (object : val) (value : segment) : bool :=
  match value with
  | Num _ => true
  | Str s => isPlainProp s || negb (isDeepProp s) || has_prop h object s
  end.

(** *** [stringToPath]: the matches of rePropName, left to right *)

Fixpoint take_digits (s : string) : string * string :=
  match s with
  | EmptyString => (EmptyString, EmptyString)
  | String c r =>
      if is_digit c then let '(d, r') := take_digits r in (String c d, r')
      else (EmptyString, s)
  end.

(** After "[": an optional minus, digits, an optional fraction, and "]".
    Yields the number as written and how many characters it spans. *)
Definition bracket_number (s : string) : option (string * nat) :=
  let '(sign, s1) :=
    match s with
    | String "-" r => ("-", r)
    | _ => (EmptyString, s)
    end in
  let '(d1, s2) := take_digits s1 in
  if bool_decide (d1 = EmptyString) then None
  else match s2 with
       | String "]" _ =>
           Some (sign +:+ d1, String.length sign + String.length d1 + 1)
       | String "." s3 =>
           let '(d2, s4) := take_digits s3 in
           if bool_decide (d2 = EmptyString) then None
           else match s4 with
                | String "]" _ =>
                    Some (sign +:+ d1 +:+ "." +:+ d2,
                          String.length sign + String.length d1
                          + 1 + String.length d2 + 1)
                | _ => None
                end
       | _ => None
       end.

Definition line_terminator (c : ascii) : bool :=
  bool_decide (c = "010"%char) || bool_decide (c = "013"%char).

(** After "[" and the quote [q]: characters up to the closing quote, a
    backslash taking the character after it along, and then "]".  Yields
    the text with reEscapeChar's backslashes dropped and how many
    characters were read. *)
Fixpoint bracket_quoted (q : ascii) (s : string) : option (string * nat) :=
  match s with
  | EmptyString => None
  | String c r =>
      if bool_decide (c = q) then
        match r with
        | String "]" _ => Some (EmptyString, 2)
        | _ => None
        end
      else if bool_decide (c = "\"%char) then
        match r with
        | String c2 r2 =>
            if line_terminator c2 then None
            else match bracket_quoted q r2 with
                 | Some (tok, n) => Some (String c2 tok, S (S n))
                 | None => None
                 end
        | EmptyString => None
        end
      else match bracket_quoted q r with
           | Some (tok, n) => Some (String c tok, S n)
           | None => None
           end
  end.

(** The bracket alternative of rePropName at a "[" followed by [s]. *)
Definition bracket (s : string) : option (string * nat) :=
  match bracket_number s with
  | Some t => Some t
  | None =>
      match s with
      | String q r =>
          if bool_decide (q = "034"%char) || bool_decide (q = "'"%char) then
            match bracket_quoted q r with
            | Some (tok, n) => Some (tok, S n)
            | None => None
            end
          else None
      | EmptyString => None
      end
  end.

Definition separator (s : string) : option string :=
  match s with
  | String "." r => Some r
  | String "[" (String "]" r) => Some r
  | _ => None
  end.

(** The lookahead alternative of rePropName: a separator that is followed by
    another one or ends the string stands for an empty key. *)
Definition empty_key_here (s : string) : bool :=
  match separator s with
  | Some EmptyString => true
  | Some r => bool_decide (is_Some (separator r))
  | None => false
  end.

Definition path_char (c : ascii) : bool :=
  negb (bool_decide (c = "."%char) || bool_decide (c = "["%char)
        || bool_decide (c = "]"%char)).

Definition flush (run : string) : list string :=
  if bool_decide (run = EmptyString) then [] else [run].

(** [run] is the bracket-free, dot-free text read so far; [skip] counts the
    characters left of a bracket expression that already matched. *)
Fixpoint propNames (run : string) (skip : nat) (s : string) : list string :=
  match s with
  | EmptyString => flush run
  | String c r =>
      match skip with
      | S n => propNames EmptyString n r
      | O =>
          if path_char c then propNames (run +:+ String c EmptyString) 0 r
          else
            flush run ++
            match (if bool_decide (c = "["%char) then bracket r else None) with
            | Some (tok, n) => tok :: propNames EmptyString n r
            | None =>
                (if empty_key_here s then [EmptyString] else [])
                ++ propNames EmptyString 0 r
            end
      end
  end.

Definition stringToPath (s : string) : list string :=
  (match s with
   | String "." _ => [EmptyString]
   | _ => []
   end) ++ propNames EmptyString 0 s.

Definition castPath (h : heap) (object : val) (value : segment) : list string :=
  if isKey h object value then [toKey value]
  else stringToPath (toKey value).

(** lodash's [isObject]: an object or a function. *)
Definition isObject (v : val) : bool :=
  match v with
  | VObj _ | VFun _ => true
  | _ => false
  end.

Definition isIndex (k : string) : bool :=
  match parse_uint k with
  | Some n => (n <? 9007199254740991)%N
  | None => false
  end.

Definition unsafe_key (k : string) : bool :=
  bool_decide (k = "__proto__") || bool_decide (k = "constructor")
  || bool_decide (k = "prototype").

(** [assignValue]: the write is skipped when the own property already holds
    the value. *)
Definition assignValue (h : heap) (object : val) (key : string) (value : val)
  : heap :=
  let objValue := prop h object key in
  if negb (has_prop h object key && strict_eq objValue value)
     || (strict_eq value VUndefined && negb (has_prop h object key))
  then assign h object key value
  else h.

(** The loop of [baseSet] over the cast path, [nested] being the container
    the next key is written into. *)
Fixpoint baseSet_loop (h : heap) (nested : val) (path : list string)
    (value : val) : heap :=
  match path with
  | [] => h
  | key :: rest =>
      if nullish nested then h
      else if unsafe_key key then h
      else
        match rest with
        | [] => assignValue h nested key value
        | next :: _ =>
            let objValue := prop h nested key in
            let '(h1, newValue) :=
              if isObject objValue then (h, objValue)
              else
                let '(h', l) :=
                  alloc h (if isIndex next then array [] else plain []) in
                (h', VObj l) in
            let h2 := assignValue h1 nested key newValue in
            baseSet_loop h2 (prop h2 nested key) rest value
        end
  end.

(** [set(object, path, value)]; the call returns [object] itself. *)
Definition set (h : heap) (object : val) (path : segment) (value : val) : heap :=
  if nullish object then h
  else if negb (isObject object) then h
  else baseSet_loop h object (castPath h object path) value.

End Lodash.

(** ** mobx *)

Module Mobx.

Definition isObservable (h : heap) (v : val) : bool :=
  match v with
  | VObj l | VFun l =>
      match h !! l with
      | Some o => obj_observable o
      | None => false
      end
  | _ => false
  end.

(** [set(obj, key, value)] on an observable writes the key as it is. *)
Definition set (h : heap) (object : val) (key : string) (value : val) : heap :=
  assign h object key value.

Definition keys (h : heap) (v : val) : list string := own_keys h v.

End Mobx.

(** ** [typeUtil.ts] *)

(** An argument of type [T | T[] | null | undefined]. *)
Inductive arg (T : Type) :=
| Undefined
| Null
| One (x : T)
| Many (xs : list T).

Arguments Undefined {T}.
Arguments Null {T}.
Arguments One {T} x.
Arguments Many {T} xs.

Definition checkArray {T} (value : arg T) : bool :=
  match value with
  | Many _ => true
  | _ => false
  end.

Definition toArray {T} (value : arg T) : list T :=
  match value with
  | Undefined | Null => []
  | One x => [x]
  | Many xs => xs
  end.

(** ** [valueUtil.ts] *)

Definition getNamePath (path : arg segment) : list segment := toArray path.

(** The [for] loop of [getValue] from index [i] on, [_namePath] being what is
    left of the path. *)
Fixpoint getValue_loop (h : heap) (current : val) (_namePath : list segment)
  : option val :=
  match _namePath with
  | [] => Some current
  | unit :: rest =>
      if nullish current then Some current
      else
        match get_prop h current unit with
        | Some next => getValue_loop h next rest
        | None => None
        end
  end.

Definition getValue (h : heap) (store : val) (namePath : arg segment)
  : option val :=
  getValue_loop h store (toArray namePath).

(** [setValue] on the normalised path; the recursive calls pass [tailPath],
    an array, which [toArray] returns as it is.  The result is the heap after
    the call and the value returned. *)
Fixpoint setValue_path (h : heap) (store : val) (_namePath : list segment)
    (value : val) : option (heap * val) :=
  match _namePath with
  | [] => Some (h, value)
  | headPath :: tailPath =>
      if negb (truthy store) then
        match headPath with
        | Num _ =>
            let '(h1, clone) := alloc h (plain []) in
            match setValue_path h1 VNull tailPath value with
            | Some (h2, r) => Some (assign h2 (VObj clone) (toKey headPath) r, VObj clone)
            | None => None
            end
        | Str _ =>
            let '(h1, l) := alloc h (plain []) in
            match setValue_path h1 VNull tailPath value with
            | Some (h2, r) => Some (assign h2 (VObj l) (toKey headPath) r, VObj l)
            | None => None
            end
        end
      else if bool_decide (typeof store = TObject) then
        match get_prop h store headPath with
        | Some sub =>
            match setValue_path h sub tailPath value with
            | Some (h1, r) => Some (Lodash.set h1 store headPath r, store)
            | None => None
            end
        | None => None
        end
      else
        let '(h1, l) := alloc h (plain []) in
        match setValue_path h1 VNull tailPath value with
        | Some (h2, r) => Some (assign h2 (VObj l) (toKey headPath) r, VObj l)
        | None => None
        end
  end.

Definition setValue (h : heap) (store : val) (namePath : arg segment)
    (value : val) : option (heap * val) :=
  setValue_path h store (toArray namePath) value.

(** The [forEach] of [cloneByNamePathList]. *)
Fixpoint cloneByNamePathList_each (h : heap) (store newStore : val)
    (namePathList : list (list segment)) : option (heap * val) :=
  match namePathList with
  | [] => Some (h, newStore)
  | namePath :: rest =>
      match getValue h store (Many namePath) with
      | Some value =>
          match setValue h newStore (Many namePath) value with
          | Some (h1, newStore') => cloneByNamePathList_each h1 store newStore' rest
          | None => None
          end
      | None => None
      end
  end.

Definition cloneByNamePathList (h : heap) (store : val)
    (namePathList : list (list segment)) : option (heap * val) :=
  let '(h0, newStore) := alloc h (plain []) in
  cloneByNamePathList_each h0 store (VObj newStore) namePathList.

(** [isObject]: an object, not null, whose prototype is [Object.prototype]. *)
Definition isObject (h : heap) (obj : val) : bool :=
  bool_decide (typeof obj = TObject)
  && negb (bool_decide (obj = VNull))
  && match obj with
     | VObj l =>
         match h !! l with
         | Some o => bool_decide (obj_proto o = ObjectPrototype)
         | None => false
         end
     | _ => false
     end.

(** What a call does: it returns, it throws a TypeError, or the model ran out
    of the fuel that bounds the depth of the recursion. *)
Inductive outcome (A : Type) :=
| Done (a : A)
| TypeError
| NoFuel.

Arguments Done {A} a.
Arguments TypeError {A}.
Arguments NoFuel {A}.

(** [const set = isObservable(store) ? oset : lset; set(store, key, v)] *)
Definition set_key (h : heap) (store : val) (key : string) (v : val) : heap :=
  if Mobx.isObservable h store then Mobx.set h store key v
  else Lodash.set h store (Str key) v.

(** The [forEach] of [internalSetValues] over the keys [ks]; [merge] is the
    recursive call. *)
Fixpoint internalSetValues_each
    (merge : list object -> val -> val -> outcome (list object * val))
    (store values : val) (h : heap) (ks : list string)
  : outcome (heap * val) :=
  match ks with
  | [] => Done (h, store)
  | key :: ks' =>
      match get_prop h store (Str key) with
      | None => TypeError
      | Some prevValue =>
          let value := prop h values key in
          let recursive := isObject h prevValue && isObject h value in
          if recursive then
            let '(h1, patch) :=
              if truthy value then (h, value)
              else let '(h', l) := alloc h (plain []) in (h', VObj l) in
            match merge h1 prevValue patch with
            | Done (h2, merged) =>
                internalSetValues_each merge store values
                  (set_key h2 store key merged) ks'
            | TypeError => TypeError
            | NoFuel => NoFuel
            end
          else
            internalSetValues_each merge store values
              (set_key h store key value) ks'
      end
  end.

Fixpoint internalSetValues (fuel : nat) (h : heap) (store values : val)
  : outcome (heap * val) :=
  match fuel with
  | O => NoFuel
  | S fuel' =>
      if negb (truthy values) then Done (h, store)
      else
        let lkeys := if Mobx.isObservable h values then Mobx.keys else own_keys in
        internalSetValues_each (internalSetValues fuel') store values h
          (lkeys h values)
  end.

(** [restValues.reduce(internalSetValues, store)] *)
Fixpoint setValues (fuel : nat) (h : heap) (store : val) (restValues : list val)
  : outcome (heap * val) :=
  match restValues with
  | [] => Done (h, store)
  | newStore :: rest =>
      match internalSetValues fuel h store newStore with
      | Done (h1, current) => setValues fuel h1 current rest
      | TypeError => TypeError
      | NoFuel => NoFuel
      end
  end.

(** [matchNamePath]; [None] stands for a path that is null or undefined. *)
Definition matchNamePath (namePath changedNamePath : option (list segment))
  : bool :=
  match namePath, changedNamePath with
  | Some np, Some cp =>
      if negb (Nat.eqb (length np) (length cp)) then false
      else
        forallb (fun b : bool => b)
          (imap (fun i nameUnit =>
                   match cp !! i with
                   | Some unit => bool_decide (unit = nameUnit)
                   | None => false
                   end) np)
  | _, _ => false
  end.

(** [new Set(keys)] spread back into an array: first occurrences, in order. *)
Fixpoint set_of (seen : list string) (ks : list string) : list string :=
  match ks with
  | [] => []
  | k :: rest =>
      if bool_decide (k ∈ seen) then set_of seen rest
      else k :: set_of (k :: seen) rest
  end.

(** [Array.prototype.every] for a callback that may throw. *)
Fixpoint every {A} (p : A -> option bool) (l : list A) : option bool :=
  match l with
  | [] => Some true
  | x :: rest =>
      match p x with
      | Some true => every p rest
      | Some false => Some false
      | None => None
      end
  end.

Definition isSimilar (h : heap) (source target : val) : option bool :=
  if strict_eq source target then Some true
  else if (negb (truthy source) && truthy target)
          || (truthy source && negb (truthy target)) then Some false
  else if negb (truthy source) || negb (truthy target)
          || negb (bool_decide (typeof source = TObject))
          || negb (bool_decide (typeof target = TObject)) then Some false
  else
    let sourceKeys := own_keys h source in
    let targetKeys := own_keys h target in
    let _keys := set_of [] (sourceKeys ++ targetKeys) in
    every (fun key =>
             match get_prop h source (Str key), get_prop h target (Str key) with
             | Some sourceValue, Some targetValue =>
                 if bool_decide (typeof sourceValue = TFunction)
                    && bool_decide (typeof targetValue = TFunction)
                 then Some true
                 else Some (strict_eq sourceValue targetValue)
             | _, _ => None
             end) _keys.

(** [Array.prototype.slice] with integer bounds. *)
Definition slice {T} (array : list T) (start finish : Z) : list T :=
  let len := Z.of_nat (length array) in
  let k := if (start <? 0)%Z then Z.max (len + start) 0 else Z.min start len in
  let final := if (finish <? 0)%Z then Z.max (len + finish) 0 else Z.min finish len in
  take (Z.to_nat (final - k)) (drop (Z.to_nat k) array).

(** What [move] hands back: its argument, or an array it built. *)
Inductive moved (T : Type) :=
| SameArray
| NewArray (items : list T).

Arguments SameArray {T}.
Arguments NewArray {T} items.

Definition move {T} (array : list T) (moveIndex toIndex : Z) : moved T :=
  let length := Z.of_nat (length array) in
  if (moveIndex <? 0)%Z || (moveIndex >=? length)%Z
     || (toIndex <? 0)%Z || (toIndex >=? length)%Z then SameArray
  else
    match array !! Z.to_nat moveIndex with
    | None => SameArray (* no such case: [moveIndex] is in range here *)
    | Some item =>
        let diff := (moveIndex - toIndex)%Z in
        if (diff >? 0)%Z then
          NewArray (slice array 0 toIndex ++ [item]
                    ++ slice array toIndex moveIndex
                    ++ slice array (moveIndex + 1) length)
        else if (diff <? 0)%Z then
          NewArray (slice array 0 moveIndex
                    ++ slice array (moveIndex + 1) (toIndex + 1)
                    ++ [item]
                    ++ slice array (toIndex + 1) length)
        else SameArray
    end.

(** ** Statements of the specification *)

(** [move], in the specification's words: the index of the input whose
    element stands at index [i] of the result once the element at [from] is
    at [to] and the elements between the two have shifted by one. *)
Definition moved_from (from to i : nat) : nat :=
  if decide (i = to) then from
  else if decide (from <= i < to) then S i
  else if decide (to < i <= from) then i - 1
  else i.

(** The test [isSimilar] applies to the two values of a key. *)
Definition similar_values (sourceValue targetValue : val) : bool :=
  if bool_decide (typeof sourceValue = TFunction)
     && bool_decide (typeof targetValue = TFunction)
  then true
  else strict_eq sourceValue targetValue.

(** ** Paths that [lodash.set] writes as one key *)

Definition keys_of (path : list segment) : list string := toKey <$> path.

(** A segment that [castPath] keeps as one key whatever the object holds,
    and that [baseSet] does not refuse. *)
Definition simple_segment (s : segment) : bool :=
  match s with
  | Num _ => true
  | Str k => Lodash.isPlainProp k || negb (Lodash.isDeepProp k)
  end && negb (Lodash.unsafe_key (toKey s)).

Definition simple_path (path : list segment) : bool :=
  forallb simple_segment path.

(** No listed path continues another one (the same path may be listed
    again). *)
Definition prefix_free (paths : list (list string)) : bool :=
  forallb (fun p =>
             forallb (fun q => negb (bool_decide (p `prefix_of` q))
                               || bool_decide (p = q)) paths) paths.

(** The paths [cloneByNamePathList] copies faithfully: none is empty, none
    has a segment that [lodash.set] reads as a path, none continues
    another. *)
Definition plain_paths (namePathList : list (list segment)) : bool :=
  forallb (fun p => negb (bool_decide (p = [])) && simple_path p) namePathList
  && prefix_free (keys_of <$> namePathList).

(** ** Heaps without dangling references *)

Definition closed_val (n : nat) (v : val) : bool :=
  match v with
  | VObj l | VFun l => (l <? n)%nat
  | _ => true
  end.

Definition closed_heap (h : heap) : bool :=
  forallb (fun o => forallb (fun kv => closed_val (length h) kv.2) (obj_props o)) h.

(** ** The shape of a store that [setValue] builds from fresh objects

    A node is a fresh plain object, a leaf any value copied into it. *)

#[warnings="-register-all"]
Inductive trie :=
| TLeaf (v : val)
| TNode (l : loc) (kids : list (string * trie)).

Definition root (t : trie) : val :=
  match t with
  | TLeaf v => v
  | TNode l _ => VObj l
  end.

Definition props_of (kids : list (string * trie)) : list (string * val) :=
  (fun kt => (kt.1, root kt.2)) <$> kids.

Fixpoint tfind (t : trie) (q : list string) : option trie :=
  match q with
  | [] => Some t
  | k :: q' =>
      match t with
      | TLeaf _ => None
      | TNode _ kids =>
          match assoc k kids with
          | Some s => tfind s q'
          | None => None
          end
      end
  end.

(** What [setValue(null, ks, v)] builds when [n] is the next free location. *)
Fixpoint chain (n : loc) (ks : list string) (v : val) : trie :=
  match ks with
  | [] => TLeaf v
  | k :: ks' => TNode n [(k, chain (S n) ks' v)]
  end.

(** What [setValue] makes of a store of shape [t]. *)
Fixpoint tset (n : loc) (t : trie) (ks : list string) (v : val) : trie :=
  match ks with
  | [] => TLeaf v
  | k :: ks' =>
      match t with
      | TLeaf w => TLeaf w
      | TNode l kids =>
          TNode l (assoc_set k
                     match assoc k kids with
                     | Some s => tset n s ks' v
                     | None => chain n ks' v
                     end kids)
      end
  end.

(** The path [ks] does not run through a leaf of [t]. *)
Fixpoint compat (t : trie) (ks : list string) : Prop :=
  match ks with
  | [] => True
  | k :: ks' =>
      match t with
      | TLeaf _ => False
      | TNode _ kids =>
          match assoc k kids with
          | Some s => compat s ks'
          | None => True
          end
      end
  end.

Definition node_at (t : trie) (q : list string) (l : loc) : Prop :=
  exists kids, tfind t q = Some (TNode l kids).

Definition dom (t : trie) (l : loc) : Prop := exists q, node_at t q l.

(** The heap holds every node of [t] as a plain object with the keys of the
    node. *)
Definition laid (h : heap) (t : trie) : Prop :=
  forall q l kids, tfind t q = Some (TNode l kids) ->
                   h !! l = Some (plain (props_of kids)).

(** No object is a node of [t] at two places. *)
Definition tree_shaped (t : trie) : Prop :=
  forall q1 q2 l, node_at t q1 l -> node_at t q2 l -> q1 = q2.

Definition bounded (lo hi : nat) (t : trie) : Prop :=
  forall l, dom t l -> lo <= l < hi.

(** What [getValue] reads in a store of shape [t]: below a leaf the walk goes
    on in the value of the leaf. *)
Fixpoint tget (h : heap) (t : trie) (q : list segment) : option val :=
  match q with
  | [] => Some (root t)
  | s :: q' =>
      match t with
      | TLeaf w => getValue_loop h w q
      | TNode _ kids =>
          match assoc (toKey s) kids with
          | Some sub => tget h sub q'
          | None => Some VUndefined
          end
      end
  end.

(** The state of [cloneByNamePathList] on the store [store] of the heap [h]
    once the paths [seen] are copied: the new store has the shape [t] in the
    heap [hi], its leaves are the values of the paths copied, and the
    objects of [h] are as they were. *)
Definition clone_inv (h : heap) (store : val) (hi : heap) (t : trie)
    (seen : list (list segment)) : Prop :=
  (exists kids, t = TNode (length h) kids)
  /\ laid hi t /\ tree_shaped t /\ bounded (length h) (length hi) t
  /\ length h <= length hi
  /\ (forall l, l < length h -> hi !! l = h !! l)
  /\ (forall p, p ∈ seen ->
        exists w, getValue_loop h store p = Some w
                  /\ tfind t (keys_of p) = Some (TLeaf w))
  /\ (forall q s, tfind t q = Some s ->
        q = [] \/ exists p, p ∈ seen /\ q `prefix_of` keys_of p)
  /\ (forall q w, tfind t q = Some (TLeaf w) ->
        exists p, p ∈ seen /\ q = keys_of p).

(** A value that [setValue] does not write into: anything but a reference to
    an object (null is falsy, a function is not of type object). *)
Definition not_object (v : val) : bool :=
  match v with
  | VObj _ => false
  | _ => true
  end.

(** The objects [setValue] writes into on its way along a path. *)
Fixpoint walk (h : heap) (store : val) (path : list segment) : list loc :=
  match path with
  | [] => []
  | s :: rest =>
      match store with
      | VObj l => l :: walk h (prop h store (toKey s)) rest
      | _ => []
      end
  end.

(** ** The merge of [setValues] on trees of plain objects *)

(** What the merge does for the key [k] of a patch with the entries
    [pkids], the store having the entries [acc]: two plain objects are
    merged by [rec], anything else is replaced by the incoming entry. *)
Definition tmerge_key (rec : trie -> trie -> trie)
    (pkids acc : list (string * trie)) (k : string) : list (string * trie) :=
  match assoc k pkids with
  | Some pv =>
      assoc_set k
        match assoc k acc, pv with
        | Some (TNode l kids), TNode _ _ => rec (TNode l kids) pv
        | _, _ => pv
        end acc
  | None => acc
  end.

(** The store of shape [t] after the patch of shape [p] is merged into it. *)
Fixpoint tmerge (fuel : nat) (t p : trie) : trie :=
  match fuel with
  | O => t
  | S fuel' =>
      match t, p with
      | TNode l kids, TNode _ pkids =>
          TNode l (fold_left (tmerge_key (tmerge fuel') pkids)
                     (ordered_keys pkids.*1) kids)
      | _, _ => t
      end
  end.

Definition everywhere (P : trie -> Prop) (t : trie) : Prop :=
  forall q s, tfind t q = Some s -> P s.

(** A leaf is a value that [isObject] rejects: a scalar, an array, an
    instance of a class, a function. *)
Definition opaque_leaf (h : heap) (s : trie) : Prop :=
  match s with
  | TLeaf w => isObject h w = false
  | TNode _ _ => True
  end.

(** The keys of a node are distinct and [lodash.set] writes each as it
    is. *)
Definition plain_keys (s : trie) : Prop :=
  match s with
  | TLeaf _ => True
  | TNode _ kids =>
      NoDup kids.*1 /\ forall k, k ∈ kids.*1 -> simple_segment (Str k) = true
  end.

Definition separate (t p : trie) : Prop := forall l, dom t l -> dom p l -> False.

Definition shallow (n : nat) (t : trie) : Prop :=
  forall q s, tfind t q = Some s -> length q < n.

(** The heap [h'] has the objects of [h], of the same kinds. *)
Definition same_kinds (h h' : heap) : Prop :=
  length h' = length h
  /\ forall l o, h !! l = Some o ->
       exists o', h' !! l = Some o' /\ obj_proto o' = obj_proto o
                  /\ obj_observable o' = obj_observable o.

(** The state of the [forEach] of [internalSetValues] on the store node [l]
    with the entries [kids] at first and [acc] now, the keys [ks] of the
    patch [tp] being left, in the heap [hi] that began as [h0]. *)
Definition merge_inv (h0 : heap) (l : loc) (kids : list (string * trie))
    (tp : trie) (hi : heap) (acc : list (string * trie)) (ks : list string)
  : Prop :=
  hi !! l = Some (plain (props_of acc))
  /\ (forall k s, assoc k acc = Some s -> laid hi s)
  /\ laid hi tp
  /\ (forall k, k ∈ ks -> assoc k acc = assoc k kids)
  /\ (forall k s l', assoc k acc = Some s -> dom s l' ->
        (exists s0, assoc k kids = Some s0 /\ dom s0 l') \/ dom tp l')
  /\ (forall l', ~ dom (TNode l kids) l' -> hi !! l' = h0 !! l')
  /\ same_kinds h0 hi.

(** What [internalSetValues] with the fuel [fuel] does on a store and a
    patch that are trees of plain objects: it returns the store, now of the
    shape [tmerge], and writes into objects of the store only. *)
Definition merges (fuel : nat) : Prop :=
  forall h l kids lp pkids,
    shallow fuel (TNode lp pkids) ->
    laid h (TNode l kids) -> laid h (TNode lp pkids) ->
    tree_shaped (TNode l kids) ->
    separate (TNode l kids) (TNode lp pkids) ->
    everywhere (opaque_leaf h) (TNode l kids) ->
    everywhere (opaque_leaf h) (TNode lp pkids) ->
    everywhere plain_keys (TNode lp pkids) ->
    exists h',
      internalSetValues fuel h (VObj l) (VObj lp) = Done (h', VObj l)
      /\ laid h' (tmerge fuel (TNode l kids) (TNode lp pkids))
      /\ (forall l', ~ dom (TNode l kids) l' -> h' !! l' = h !! l')
      /\ same_kinds h h'
      /\ (forall l', dom (tmerge fuel (TNode l kids) (TNode lp pkids)) l' ->
            dom (TNode l kids) l' \/ dom (TNode lp pkids) l').

(** The entry of the key [k] after the merge, [prev] being the entry of the
    store before. *)
Definition merged_entry (rec : trie -> trie -> trie)
    (pkids : list (string * trie)) (prev : option trie) (k : string)
  : option trie :=
  match assoc k pkids with
  | Some pv =>
      Some match prev, pv with
           | Some (TNode l kids), TNode _ _ => rec (TNode l kids) pv
           | _, _ => pv
           end
  | None => prev
  end.

(** An instance: the store {a: 1, b: {c: 2}, e: [7]} at the locations 0, 1
    and 4 and the patch {a: 4, b: {d: 5}, e: [9]} at 2, 3 and 5, with their
    shapes; the arrays are leaves. *)
Definition merge_example_heap : list object :=
  [plain [("a", VNum 1); ("b", VObj 1); ("e", VObj 4)];
   plain [("c", VNum 2)];
   plain [("a", VNum 4); ("b", VObj 3); ("e", VObj 5)];
   plain [("d", VNum 5)];
   array [VNum 7];
   array [VNum 9]].

Definition merge_example_store : list (string * trie) :=
  [("a", TLeaf (VNum 1)); ("b", TNode 1 [("c", TLeaf (VNum 2))]);
   ("e", TLeaf (VObj 4))].

Definition merge_example_patch : list (string * trie) :=
  [("a", TLeaf (VNum 4)); ("b", TNode 3 [("d", TLeaf (VNum 5))]);
   ("e", TLeaf (VObj 5))].

(** ** The rest of [valueUtil.ts] *)

(** A value of type [T | null | undefined]. *)
Inductive nullable (A : Type) :=
| IsUndefined
| IsNull
| Is (a : A).

Arguments IsUndefined {A}.
Arguments IsNull {A}.
Arguments Is {A} a.

(** [namePathList && namePathList.some(...)]: a list that is null or
    undefined is returned as it is. *)
Definition containsNamePath (namePathList : nullable (list (list segment)))
    (namePath : option (list segment)) : nullable bool :=
  match namePathList with
  | IsUndefined => IsUndefined
  | IsNull => IsNull
  | Is paths =>
      Is (existsb (fun path => matchNamePath (Some path) namePath) paths)
  end.

(** [k in base]: a TypeError ([None]) unless [base] is an object or a
    function. *)
Definition js_in (h : heap) (k : string) (base : val) : option bool :=
  match base with
  | VObj _ | VFun _ => Some (has_prop h base k)
  | _ => None
  end.

(** [defaultGetValueFromEvent(valuePropName, ...args)] *)
Definition defaultGetValueFromEvent (h : heap) (valuePropName : string)
    (args : list val) : option val :=
  let event := default VUndefined (args !! 0) in
  if truthy event then
    match get_prop h event (Str "target") with
    | None => None
    | Some target =>
        if truthy target then
          if bool_decide (typeof target = TObject) then
            match js_in h valuePropName target with
            | None => None
            | Some true => get_prop h target (Str valuePropName)
            | Some false => Some event
            end
          else Some event
        else Some event
    end
  else Some event.

(** ** What a read touches *)

(** The objects [getValue] looks into on its way along a path. *)
Fixpoint reads (h : heap) (current : val) (path : list segment) : list loc :=
  match path with
  | [] => []
  | s :: rest =>
      match current with
      | VUndefined | VNull => []
      | VObj l | VFun l => l :: reads h (prop h current (toKey s)) rest
      | _ => reads h (prop h current (toKey s)) rest
      end
  end.

(** ** Patches without plain objects *)

(** The value the key [k] has after the patches [patches], one after the
    other, are written over the value [d]. *)
Definition latest (h : heap) (patches : list val) (k : string) (d : val) : val :=
  fold_left (fun acc patch =>
               if bool_decide (k ∈ own_keys h patch) then prop h patch k
               else acc) patches d.

(** A patch that [internalSetValues] writes key by key into the object at
    [l]: it is not that object, none of its values is a plain object, and
    each of its keys is one that [lodash.set] writes as a single key. *)
Definition flat_patch (h : heap) (l : loc) (patch : val) : bool :=
  negb (bool_decide (patch = VObj l)) && negb (bool_decide (patch = VFun l))
  && forallb (fun k => negb (isObject h (prop h patch k))
                       && simple_segment (Str k))
       (own_keys h patch).

(** ** Where a write is a plain write *)

(** A number that JavaScript holds exactly and spells in decimal as a
    property key: an integer of magnitude at most 2^53 - 1. *)
Definition exact_segment (s : segment) : bool :=
  match s with
  | Num n => (Z.abs n <=? 9007199254740991)%Z
  | Str _ => true
  end.

Definition exact_path (path : list segment) : bool :=
  forallb exact_segment path.

(** The object at [l] takes [o[k] = v] as the write of an own data property
    and nothing more: it is a plain object or an array, not an observable,
    and [k] is neither the [length] of an array (a write to it resizes the
    array or throws a RangeError) nor [__proto__]. *)
Definition written_plainly (h : heap) (l : loc) (k : string) : bool :=
  match h !! l with
  | Some o =>
      negb (obj_observable o)
      && negb (bool_decide (k = "__proto__"))
      && (bool_decide (obj_proto o = ObjectPrototype)
          || (bool_decide (obj_proto o = ArrayPrototype)
              && negb (bool_decide (k = "length"))))
  | None => false
  end.

(** Every object on the way of [setValue] along the path takes its key as a
    plain write. *)
Fixpoint plain_walk (h : heap) (store : val) (path : list segment) : bool :=
  match path with
  | [] => true
  | s :: rest =>
      match store with
      | VObj l =>
          written_plainly h l (toKey s)
          && plain_walk h (prop h store (toKey s)) rest
      | _ => true
      end
  end.

(** ** Own properties along a path *)

(** What a value holds at a path of keys by own properties alone; [None]
    when, somewhere on the way, the value reached does not own the next
    key. *)
Fixpoint own_at (h : heap) (v : val) (ks : list string) : option val :=
  match ks with
  | [] => Some v
  | k :: ks' =>
      match find_prop h v k with
      | Some w => own_at h w ks'
      | None => None
      end
  end.

(** * Properties *)

(** ** Heap and property-list lemmas *)

Lemma lookup_alloc (h : heap) (o : object) :
  (alloc h o).1 !! (alloc h o).2 = Some o.
Proof. unfold alloc; simpl. by rewrite lookup_app_r, Nat.sub_diag. Qed.

Lemma lookup_alloc_old (h : heap) (o : object) (l : loc) :
  l < length h -> (alloc h o).1 !! l = h !! l.
Proof. intros Hl. unfold alloc; simpl. by rewrite lookup_app_l. Qed.

Lemma assoc_set_eq {V} k (v : V) props : assoc k (assoc_set k v props) = Some v.
Proof.
  induction props as [|[k' v'] props IH]; simpl.
  - by rewrite decide_True.
  - destruct (decide (k = k')) as [->|Hne]; simpl.
    + by rewrite decide_True.
    + by rewrite decide_False.
Qed.

Lemma assoc_set_ne {V} k k' (v : V) props :
  k <> k' -> assoc k' (assoc_set k v props) = assoc k' props.
Proof.
  intros Hne. induction props as [|[k0 v0] props IH]; simpl.
  - by rewrite decide_False.
  - destruct (decide (k = k0)) as [->|Hne0]; simpl.
    + by rewrite !decide_False.
    + destruct (decide (k' = k0)); [done | apply IH].
Qed.

Lemma put_prop_length h l k v : length (put_prop h l k v) = length h.
Proof. unfold put_prop. apply length_alter. Qed.

Lemma put_prop_lookup h l k v o :
  h !! l = Some o ->
  put_prop h l k v !! l
  = Some (Object (obj_proto o) (obj_observable o) (assoc_set k v (obj_props o))).
Proof. intros Ho. unfold put_prop. by rewrite list_lookup_alter_eq, Ho. Qed.

Lemma put_prop_lookup_ne h l l' k v :
  l <> l' -> put_prop h l k v !! l' = h !! l'.
Proof. intros Hne. unfold put_prop. by rewrite list_lookup_alter_ne. Qed.

(** ** [getValue] *)

Lemma getValue_loop_total h path : forall current,
  is_Some (getValue_loop h current path).
Proof.
  induction path as [|unit rest IH]; intros current; simpl; [by eexists|].
  destruct (nullish current) eqn:Hn; [by eexists|].
  unfold get_prop. rewrite Hn. apply IH.
Qed.

Lemma getValue_loop_nullish h path current :
  nullish current = true -> getValue_loop h current path = Some current.
Proof. intros Hn. destruct path; simpl; [done | by rewrite Hn]. Qed.

Lemma getValue_loop_app h walked rest : forall current,
  getValue_loop h current (walked ++ rest)
  = match getValue_loop h current walked with
    | Some node => getValue_loop h node rest
    | None => None
    end.
Proof.
  induction walked as [|unit walked IH]; intros current; simpl; [done|].
  destruct (nullish current) eqn:Hn.
  - symmetry. by apply getValue_loop_nullish.
  - destruct (get_prop h current unit); [apply IH | done].
Qed.

(** Indexing null or undefined is the TypeError that the loop's guard
    keeps [getValue] away from. *)
Lemma get_prop_nullish h node unit :
  nullish node = true -> get_prop h node unit = None.
Proof. intros Hn. unfold get_prop. by rewrite Hn. Qed.

(** C4: [getValue] returns for every store and path (it never throws) and
    walks the store one segment at a time: with no segment it yields the
    store; from a node that is neither null nor undefined the next segment
    yields the property of that node; and once the node reached is null or
    undefined, that very value is the result whatever segments remain, none
    of them being used to index.  So a null store reads null and an
    undefined store reads undefined, on every path. *)
Theorem getValue_short_circuit (h : heap) (store : val) :
  (forall namePath, is_Some (getValue h store namePath))
  /\ getValue h store (Many []) = Some store
  /\ (forall walked unit node,
        getValue h store (Many walked) = Some node ->
        nullish node = false ->
        getValue h store (Many (walked ++ [unit]))
        = Some (prop h node (toKey unit)))
  /\ (forall walked rest node,
        getValue h store (Many walked) = Some node ->
        nullish node = true ->
        getValue h store (Many (walked ++ rest)) = Some node)
  /\ (forall namePath,
        nullish store = true -> getValue h store namePath = Some store).
Proof.
  split; [|split; [|split; [|split]]].
  - intros namePath. apply getValue_loop_total.
  - done.
  - intros walked unit node Hw Hn. unfold getValue in *; simpl in *.
    rewrite getValue_loop_app, Hw. simpl. unfold get_prop. by rewrite Hn.
  - intros walked rest node Hw Hn. unfold getValue in *; simpl in *.
    rewrite getValue_loop_app, Hw. by apply getValue_loop_nullish.
  - intros namePath Hn. by apply getValue_loop_nullish.
Qed.

Lemma getValue_short_circuit_witness :
  getValue [plain [("a", VObj 1)]; plain [("b", VNull)]] (VObj 0)
    (Many ([Str "a"] ++ [Str "b"]))
  = Some (prop [plain [("a", VObj 1)]; plain [("b", VNull)]] (VObj 1)
            (toKey (Str "b")))
  /\ getValue [plain [("a", VObj 1)]; plain [("b", VNull)]] (VObj 0)
       (Many ([Str "a"; Str "b"] ++ [Str "c"; Num 3]))
     = Some VNull
  /\ getValue [] VUndefined (Many [Str "a"; Num 0]) = Some VUndefined.
Proof.
  split; [|split].
  - apply (proj1 (proj2 (proj2 (getValue_short_circuit
                                  [plain [("a", VObj 1)]; plain [("b", VNull)]]
                                  (VObj 0))))
             [Str "a"] (Str "b") (VObj 1)); reflexivity.
  - apply (proj1 (proj2 (proj2 (proj2 (getValue_short_circuit
                                  [plain [("a", VObj 1)]; plain [("b", VNull)]]
                                  (VObj 0)))))
             [Str "a"; Str "b"] [Str "c"; Num 3] VNull); reflexivity.
  - apply (proj2 (proj2 (proj2 (proj2 (getValue_short_circuit [] VUndefined))))
             (Many [Str "a"; Num 0])); reflexivity.
Defined.

(** C9: an empty path, and the null or undefined path that [toArray] turns
    into it, reads the store itself, whatever value the store is. *)
Theorem getValue_empty_path (h : heap) (s : val) :
  getValue h s (Many []) = Some s
  /\ getValue h s Null = Some s
  /\ getValue h s Undefined = Some s.
Proof. repeat split. Qed.

(** ** [matchNamePath] *)

Lemma every_index_spec (np cp : list segment) :
  forallb (fun b : bool => b)
    (imap (fun i nameUnit =>
             match cp !! i with
             | Some unit => bool_decide (unit = nameUnit)
             | None => false
             end) np) = true
  <-> forall i nameUnit, np !! i = Some nameUnit -> cp !! i = Some nameUnit.
Proof.
  revert cp. induction np as [|x np IH]; intros cp; simpl.
  - split; [intros _ i u Hi; by rewrite lookup_nil in Hi | done].
  - rewrite andb_true_iff. unfold compose.
    specialize (IH (drop 1 cp)).
    assert (Heq : imap (fun i nameUnit =>
                     match cp !! S i with
                     | Some unit => bool_decide (unit = nameUnit)
                     | None => false
                     end) np
                = imap (fun i nameUnit =>
                     match drop 1 cp !! i with
                     | Some unit => bool_decide (unit = nameUnit)
                     | None => false
                     end) np).
    { apply imap_ext. intros i u _. by rewrite lookup_drop. }
    rewrite Heq, IH. split.
    + intros [H0 Hr] [|i] u Hi; simpl in *.
      * inversion Hi; subst. destruct (cp !! 0) eqn:E; [|done].
        apply bool_decide_eq_true in H0. by subst.
      * specialize (Hr i u Hi). by rewrite lookup_drop in Hr.
    + intros H. split.
      * rewrite (H 0 x eq_refl). by apply bool_decide_eq_true.
      * intros i u Hi. rewrite lookup_drop. by apply (H (S i)).
Qed.

(** C7: [matchNamePath] is false when either path is null or undefined or
    when the lengths differ; for two paths of one length it is true exactly
    when the segments at every index are the same segment, a number never
    being the string that spells it. *)
Theorem matchNamePath_spec :
  (forall changed, matchNamePath None changed = false)
  /\ (forall path, matchNamePath path None = false)
  /\ (forall np cp, length np <> length cp ->
        matchNamePath (Some np) (Some cp) = false)
  /\ (forall np cp, length np = length cp ->
        (matchNamePath (Some np) (Some cp) = true
         <-> forall i, np !! i = cp !! i))
  /\ matchNamePath (Some [Str "a"; Num 0]) (Some [Str "a"; Num 0]) = true
  /\ matchNamePath (Some [Str "a"; Num 0]) (Some [Str "a"; Str "0"]) = false
  /\ matchNamePath (Some [Str "a"]) (Some [Str "a"; Str "b"]) = false.
Proof.
  split; [done|]. split; [by intros [?|]|].
  split.
  { intros np cp Hne. unfold matchNamePath.
    destruct (Nat.eqb_spec (length np) (length cp)); [done | done]. }
  split; [|by vm_compute].
  intros np cp Hlen. unfold matchNamePath.
  rewrite Hlen, Nat.eqb_refl. simpl. rewrite every_index_spec. split.
  - intros H i. destruct (np !! i) as [u|] eqn:E.
    + symmetry. by apply H.
    + apply lookup_ge_None in E. symmetry. apply lookup_ge_None. lia.
  - intros H i u Hi. by rewrite <- H.
Qed.

Lemma matchNamePath_spec_witness :
  matchNamePath (Some [Num 1; Str "b"]) (Some [Str "1"]) = false.
Proof.
  apply (proj1 (proj2 (proj2 matchNamePath_spec)) [Num 1; Str "b"] [Str "1"]).
  simpl. lia.
Defined.

(** ** [move] *)

Lemma slice_in_range {T} (array : list T) (a b : nat) :
  a <= b <= length array ->
  slice array (Z.of_nat a) (Z.of_nat b) = take (b - a) (drop a array).
Proof.
  intros Hab. unfold slice.
  destruct (Z.ltb_spec (Z.of_nat a) 0); [lia|].
  destruct (Z.ltb_spec (Z.of_nat b) 0); [lia|].
  rewrite !Z.min_l by lia.
  replace (Z.to_nat (Z.of_nat b - Z.of_nat a)) with (b - a) by lia.
  by rewrite Nat2Z.id.
Qed.

Lemma move_left_lookup {T} (array : list T) (from to : nat) (item : T) :
  to < from < length array ->
  array !! from = Some item ->
  forall i,
    (take to array ++ [item] ++ take (from - to) (drop to array)
     ++ drop (S from) array) !! i
    = array !! moved_from from to i.
Proof.
  intros Hr Hitem i. unfold moved_from.
  rewrite !lookup_app, !lookup_take, !lookup_drop, !length_take, length_drop.
  simpl. rewrite !Nat.min_l by lia.
  repeat case_decide; try lia; try done.
  all: try (destruct (array !! i) eqn:E; [done|];
            apply lookup_ge_None in E; lia).
  - subst. rewrite Nat.sub_diag. simpl. by rewrite Hitem.
  - destruct (i - to) as [|m] eqn:Em; [lia|]. simpl.
    replace (to + (m - 0)) with (i - 1) by lia.
    destruct (array !! (i - 1)) eqn:E; [done|]. apply lookup_ge_None in E. lia.
  - destruct (i - to) as [|m] eqn:Em; [lia|]. simpl. f_equal. lia.
Qed.

Lemma move_right_lookup {T} (array : list T) (from to : nat) (item : T) :
  from < to < length array ->
  array !! from = Some item ->
  forall i,
    (take from array ++ take (to - from) (drop (S from) array) ++ [item]
     ++ drop (S to) array) !! i
    = array !! moved_from from to i.
Proof.
  intros Hr Hitem i. unfold moved_from.
  rewrite !lookup_app, !lookup_take, !lookup_drop, !length_take, length_drop.
  simpl. rewrite !Nat.min_l by lia.
  repeat case_decide; try lia; try done.
  all: try (destruct (array !! i) eqn:E; [done|];
            apply lookup_ge_None in E; lia).
  - replace (S (from + (i - from))) with (S i) by lia.
    destruct (array !! S i) eqn:E; [done|]. apply lookup_ge_None in E. lia.
  - subst. replace (to - from - (to - from)) with 0 by lia. simpl.
    by rewrite Hitem.
  - destruct (i - from - (to - from)) as [|m] eqn:Em; [lia|]. simpl.
    f_equal. lia.
Qed.

(** C6: out of range or with equal indices [move] hands back its argument;
    otherwise it builds an array of the same length in which the element of
    index [from] stands at [to] and the elements between the two indices have
    shifted by one, every other element keeping its place.  The argument is
    only read. *)
Theorem move_spec :
  (forall T (array : list T) (from to : Z),
      (from < 0 \/ Z.of_nat (length array) <= from
       \/ to < 0 \/ Z.of_nat (length array) <= to \/ from = to)%Z ->
      move array from to = SameArray)
  /\ (forall T (array : list T) (from to : nat),
        from < length array -> to < length array -> from <> to ->
        exists items,
          move array (Z.of_nat from) (Z.of_nat to) = NewArray items
          /\ length items = length array
          /\ forall i, items !! i = array !! moved_from from to i)
  /\ move [1; 2; 3; 4]%Z 1 3 = NewArray [1; 3; 4; 2]%Z
  /\ move [1; 2; 3]%Z (-1) 0 = SameArray.
Proof.
  split; [|split; [|by vm_compute]].
  - intros T array from to H. unfold move.
    destruct (Z.ltb_spec from 0); [done|].
    destruct (Z.geb_spec from (Z.of_nat (length array))); [done|].
    destruct (Z.ltb_spec to 0); [done|].
    destruct (Z.geb_spec to (Z.of_nat (length array))); [done|].
    simpl. assert (from = to) as -> by lia.
    destruct (array !! Z.to_nat to); [|done].
    rewrite Z.sub_diag. done.
  - intros T array from to Hf Ht Hne. unfold move.
    destruct (Z.ltb_spec (Z.of_nat from) 0); [lia|].
    destruct (Z.geb_spec (Z.of_nat from) (Z.of_nat (length array))); [lia|].
    destruct (Z.ltb_spec (Z.of_nat to) 0); [lia|].
    destruct (Z.geb_spec (Z.of_nat to) (Z.of_nat (length array))); [lia|].
    simpl. rewrite Nat2Z.id.
    destruct (array !! from) as [item|] eqn:Hitem;
      [|apply lookup_ge_None in Hitem; lia].
    replace (Z.of_nat from + 1)%Z with (Z.of_nat (S from)) by lia.
    replace (Z.of_nat to + 1)%Z with (Z.of_nat (S to)) by lia.
    destruct (Z.gtb_spec (Z.of_nat from - Z.of_nat to) 0).
    + change 0%Z with (Z.of_nat 0).
      eexists; split; [done|].
      rewrite !slice_in_range by lia.
      rewrite Nat.sub_0_r, drop_0.
      replace (length array - S from) with (length (drop (S from) array))
        by (rewrite length_drop; lia).
      rewrite firstn_all.
      split.
      * repeat (rewrite ?length_app, ?length_take, ?length_drop; simpl). lia.
      * apply move_left_lookup; [lia | done].
    + destruct (Z.ltb_spec (Z.of_nat from - Z.of_nat to) 0); [|lia].
      change 0%Z with (Z.of_nat 0).
      eexists; split; [done|].
      rewrite !slice_in_range by lia.
      rewrite Nat.sub_0_r, drop_0.
      replace (length array - S to) with (length (drop (S to) array))
        by (rewrite length_drop; lia).
      rewrite firstn_all.
      replace (S to - S from) with (to - from) by lia.
      split.
      * repeat (rewrite ?length_app, ?length_take, ?length_drop; simpl). lia.
      * apply move_right_lookup; [lia | done].
Qed.

Lemma move_spec_witness :
  move ["a"; "b"; "c"] 5 1 = SameArray
  /\ exists items,
       move ["a"; "b"; "c"] (Z.of_nat 2) (Z.of_nat 0) = NewArray items
       /\ length items = 3
       /\ forall i, items !! i = ["a"; "b"; "c"] !! moved_from 2 0 i.
Proof.
  split.
  - apply (proj1 move_spec). simpl. lia.
  - apply (proj1 (proj2 move_spec) _ ["a"; "b"; "c"] 2 0); simpl; lia.
Defined.

(** ** [setValue] from nothing *)

Lemma put_prop_app_here (h t : heap) (o : object) k v :
  put_prop (h ++ o :: t) (length h) k v
  = h ++ Object (obj_proto o) (obj_observable o) (assoc_set k v (obj_props o)) :: t.
Proof.
  unfold put_prop. induction h as [|x h IH]; simpl; [done|].
  f_equal. apply IH.
Qed.

(** C1 (the code departs from it): from a null store the path [['a', 0]]
    yields a fresh object whose node at ['a'] holds [v] under the key 0, but
    that node is a plain object, built by [{}], and no array. *)
Theorem setValue_null_numeric_segment (h : heap) (v : val) :
  exists h' root node,
    setValue h VNull (Many [Str "a"; Num 0]) v = Some (h', VObj root)
    /\ root = length h
    /\ getValue h' (VObj root) (Many [Str "a"]) = Some (VObj node)
    /\ h' !! node = Some (plain [("0", v)])
    /\ obj_proto (plain [("0", v)]) <> ArrayPrototype.
Proof.
  exists (h ++ [plain [("a", VObj (S (length h)))]; plain [("0", v)]]),
         (length h), (S (length h)).
  split; [|split; [done|split; [|split; [|done]]]].
  - unfold setValue, setValue_path, alloc, assign. simpl.
    rewrite length_app. simpl. rewrite Nat.add_1_r.
    replace ((h ++ [plain []]) ++ [plain []]) with (h ++ [plain []; plain []])
      by (by rewrite <- app_assoc).
    pose proof (put_prop_app_here (h ++ [plain []]) [] (plain []) "0" v) as H1.
    rewrite length_app in H1. simpl in H1. rewrite Nat.add_1_r in H1.
    rewrite <- !app_assoc in H1. simpl in H1.
    change (pretty 0%Z) with "0". rewrite H1.
    by rewrite put_prop_app_here.
  - unfold getValue, getValue_loop, get_prop, prop, find_prop, own_prop. simpl.
    by rewrite lookup_app_r, Nat.sub_diag.
  - rewrite lookup_app_r by lia.
    by replace (S (length h) - length h) with 1 by lia.
Qed.

(** ** [isSimilar] *)

Lemma strict_eq_sym a b : strict_eq a b = strict_eq b a.
Proof. unfold strict_eq. apply bool_decide_ext. split; congruence. Qed.

Lemma elem_of_set_of ks : forall seen k,
  k ∈ set_of seen ks <-> k ∈ ks /\ k ∉ seen.
Proof.
  induction ks as [|x ks IH]; intros seen k; simpl.
  - split; [by intros ?%elem_of_nil | by intros [?%elem_of_nil _]].
  - case_bool_decide as Hx.
    + rewrite IH, elem_of_cons. split; [tauto|].
      intros [[->|?] ?]; tauto.
    + rewrite !elem_of_cons, IH, elem_of_cons. split.
      * intros [->|[? ?]]; [tauto|]. split; [tauto|]. tauto.
      * intros [[->|?] ?]; [tauto|].
        destruct (decide (k = x)); [tauto|]. right. tauto.
Qed.

Lemma every_total {A} (f : A -> bool) (l : list A) :
  every (fun x => Some (f x)) l = Some (forallb f l).
Proof.
  induction l as [|x l IH]; simpl; [done|].
  destruct (f x); [apply IH | done].
Qed.

Lemma every_ext {A} (p q : A -> option bool) (l : list A) :
  (forall x, p x = q x) -> every p l = every q l.
Proof.
  intros H. induction l as [|x l IH]; simpl; [done|].
  rewrite H. destruct (q x) as [[]|]; [apply IH | done | done].
Qed.

Lemma forallb_same_elements {A} (f g : A -> bool) (l1 l2 : list A) :
  (forall x, f x = g x) ->
  (forall x, x ∈ l1 <-> x ∈ l2) -> forallb f l1 = forallb g l2.
Proof.
  intros Hfg H. apply eq_true_iff_eq. rewrite !forallb_forall.
  split; intros Hf x Hx; [rewrite <- Hfg | rewrite Hfg]; apply Hf;
    apply list_elem_of_In; apply list_elem_of_In in Hx; by apply H.
Qed.

Lemma similar_values_sym a b : similar_values a b = similar_values b a.
Proof. unfold similar_values. by rewrite andb_comm, strict_eq_sym. Qed.

Lemma similar_values_spec a b :
  similar_values a b = true
  <-> (typeof a = TFunction /\ typeof b = TFunction) \/ a = b.
Proof.
  unfold similar_values, strict_eq.
  repeat case_bool_decide; simpl; split; try tauto; try done;
    intros [[? ?]|?]; done.
Qed.

(** Past its guards [isSimilar] compares two objects key by key and no read
    throws. *)
Lemma isSimilar_compare h source target keys :
  nullish source = false -> nullish target = false ->
  every (fun key =>
           match get_prop h source (Str key), get_prop h target (Str key) with
           | Some sourceValue, Some targetValue =>
               if bool_decide (typeof sourceValue = TFunction)
                  && bool_decide (typeof targetValue = TFunction)
               then Some true
               else Some (strict_eq sourceValue targetValue)
           | _, _ => None
           end) keys
  = Some (forallb (fun key => similar_values (prop h source key)
                                             (prop h target key)) keys).
Proof.
  intros Hs Ht. rewrite <- every_total. apply every_ext. intros key.
  unfold get_prop, similar_values. rewrite Hs, Ht. simpl.
  by destruct (_ && _).
Qed.

Lemma truthy_not_nullish v : truthy v = true -> nullish v = false.
Proof. by destruct v. Qed.

Lemma isSimilar_objects h source target :
  strict_eq source target = false ->
  truthy source = true -> truthy target = true ->
  typeof source = TObject -> typeof target = TObject ->
  isSimilar h source target
  = Some (forallb (fun key => similar_values (prop h source key)
                                             (prop h target key))
            (set_of [] (own_keys h source ++ own_keys h target))).
Proof.
  intros Hne Hs Ht Hos Hot. unfold isSimilar.
  rewrite Hne, Hs, Ht, Hos, Hot.
  rewrite bool_decide_eq_true_2 by done. cbn [negb andb orb].
  apply isSimilar_compare; by apply truthy_not_nullish.
Qed.

(** C10: [isSimilar] gives the same answer with its arguments exchanged. *)
Theorem isSimilar_sym (h : heap) (a b : val) :
  isSimilar h a b = isSimilar h b a.
Proof.
  destruct (strict_eq a b) eqn:Hab.
  { unfold isSimilar. by rewrite (strict_eq_sym b a), Hab. }
  destruct (truthy a) eqn:Ha, (truthy b) eqn:Hb;
    try (unfold isSimilar; rewrite (strict_eq_sym b a), Hab, Ha, Hb; done).
  destruct (decide (typeof a = TObject)) as [Hoa|Hoa],
           (decide (typeof b = TObject)) as [Hob|Hob];
    try (unfold isSimilar; rewrite (strict_eq_sym b a), Hab, Ha, Hb;
         cbn [negb andb orb];
         rewrite ?(bool_decide_eq_false_2 _ Hoa), ?(bool_decide_eq_false_2 _ Hob),
           ?(bool_decide_eq_true_2 _ Hoa), ?(bool_decide_eq_true_2 _ Hob);
         done).
  rewrite !isSimilar_objects by (done || by rewrite strict_eq_sym).
  f_equal.
  apply forallb_same_elements.
  - intros key. apply similar_values_sym.
  - intros key. rewrite !elem_of_set_of, !elem_of_app. tauto.
Qed.

(** C8: for two distinct objects [isSimilar] returns, and returns true
    exactly when, for every key that either object owns, the two values are
    both functions or are [===]; so two distinct functions under one key are
    similar, two different numbers are not, and two distinct objects of equal
    content under one key are not. *)
Theorem isSimilar_spec :
  (forall (h : heap) (a b : loc),
      a <> b ->
      exists r,
        isSimilar h (VObj a) (VObj b) = Some r
        /\ (r = true
            <-> forall key,
                key ∈ own_keys h (VObj a) \/ key ∈ own_keys h (VObj b) ->
                (typeof (prop h (VObj a) key) = TFunction
                 /\ typeof (prop h (VObj b) key) = TFunction)
                \/ prop h (VObj a) key = prop h (VObj b) key))
  /\ isSimilar [plain [("f", VFun 2)]; plain [("f", VFun 3)];
                Object OtherPrototype false []; Object OtherPrototype false []]
       (VObj 0) (VObj 1) = Some true
  /\ isSimilar [plain [("x", VNum 1)]; plain [("x", VNum 2)]]
       (VObj 0) (VObj 1) = Some false
  /\ isSimilar [plain [("x", VObj 2)]; plain [("x", VObj 3)];
                plain [("y", VNum 1)]; plain [("y", VNum 1)]]
       (VObj 0) (VObj 1) = Some false
  /\ isSimilar [plain [("x", VObj 2)]; plain [("x", VObj 2)];
                plain [("y", VNum 1)]]
       (VObj 0) (VObj 1) = Some true.
Proof.
  split; [|by vm_compute].
  intros h a b Hne.
  rewrite isSimilar_objects
    by (done || apply bool_decide_eq_false_2; congruence).
  eexists; split; [done|].
  rewrite forallb_forall. split.
  - intros H key Hkey. apply similar_values_spec, H, list_elem_of_In.
    rewrite elem_of_set_of, elem_of_app. split; [done | apply not_elem_of_nil].
  - intros H key Hkey%list_elem_of_In.
    rewrite elem_of_set_of, elem_of_app in Hkey.
    apply similar_values_spec, H. tauto.
Qed.

Lemma isSimilar_spec_witness :
  exists r,
    isSimilar [plain [("x", VNum 1)]; plain [("x", VNum 1); ("g", VFun 2)];
               Object OtherPrototype false []] (VObj 0) (VObj 1) = Some r
    /\ (r = true
        <-> forall key,
            key ∈ own_keys [plain [("x", VNum 1)];
                            plain [("x", VNum 1); ("g", VFun 2)];
                            Object OtherPrototype false []] (VObj 0)
            \/ key ∈ own_keys [plain [("x", VNum 1)];
                               plain [("x", VNum 1); ("g", VFun 2)];
                               Object OtherPrototype false []] (VObj 1) ->
            (typeof (prop [plain [("x", VNum 1)];
                           plain [("x", VNum 1); ("g", VFun 2)];
                           Object OtherPrototype false []] (VObj 0) key)
             = TFunction
             /\ typeof (prop [plain [("x", VNum 1)];
                              plain [("x", VNum 1); ("g", VFun 2)];
                              Object OtherPrototype false []] (VObj 1) key)
                = TFunction)
            \/ prop [plain [("x", VNum 1)];
                     plain [("x", VNum 1); ("g", VFun 2)];
                     Object OtherPrototype false []] (VObj 0) key
               = prop [plain [("x", VNum 1)];
                       plain [("x", VNum 1); ("g", VFun 2)];
                       Object OtherPrototype false []] (VObj 1) key).
Proof.
  apply (proj1 isSimilar_spec
           [plain [("x", VNum 1)]; plain [("x", VNum 1); ("g", VFun 2)];
            Object OtherPrototype false []] 0 1).
  lia.
Defined.

(** ** Keys that [lodash.set] reads as paths *)

(** [stringToPath] on dotted, bracketed and quoted keys. *)
Example stringToPath_dotted :
  Lodash.stringToPath "a.b.c" = ["a"; "b"; "c"]
  /\ Lodash.stringToPath "a[0].b" = ["a"; "0"; "b"]
  /\ Lodash.stringToPath ".a" = [""; "a"]
  /\ Lodash.stringToPath "a..b" = ["a"; ""; "b"]
  /\ Lodash.stringToPath "a['x.y'][-1.5]" = ["a"; "x.y"; "-1.5"]
  /\ Lodash.stringToPath "a[12.]" = ["a"; "12"].
Proof. vm_compute. repeat split. Qed.

(** C2 (the code departs from it): on an existing object [setValue] writes
    through [lodash.set], which reads the segment "a.b" as the path a, b,
    while [getValue] indexes with the segment as it is: the value written is
    not read back.  From a null store, where the key is written as it is, it
    is. *)
Theorem setValue_compound_key_read_back :
  setValue [plain []] (VObj 0) (Many [Str "a.b"]) (VNum 1)
  = Some ([plain [("a", VObj 1)]; plain [("b", VNum 1)]], VObj 0)
  /\ getValue [plain [("a", VObj 1)]; plain [("b", VNum 1)]] (VObj 0)
       (Many [Str "a.b"]) = Some VUndefined
  /\ setValue [] VNull (Many [Str "a.b"]) (VNum 1)
     = Some ([plain [("a.b", VNum 1)]], VObj 0)
  /\ getValue [plain [("a.b", VNum 1)]] (VObj 0) (Many [Str "a.b"])
     = Some (VNum 1).
Proof. by vm_compute. Qed.

(** The two merges of the documentation of [setValues]: a scalar is
    overwritten and a nested plain object is merged in place, its other keys
    kept; an array is replaced as a whole by the incoming array. *)
Example setValues_documented :
  setValues 2
    [plain [("a", VNum 1); ("b", VObj 1)]; plain [("c", VNum 2)];
     plain [("a", VNum 4); ("b", VObj 3)]; plain [("d", VNum 5)]]
    (VObj 0) [VObj 2]
  = Done ([plain [("a", VNum 4); ("b", VObj 1)];
           plain [("c", VNum 2); ("d", VNum 5)];
           plain [("a", VNum 4); ("b", VObj 3)]; plain [("d", VNum 5)]],
          VObj 0)
  /\ setValues 2
       [plain [("a", VObj 1)]; array [VNum 1; VNum 2; VNum 3];
        plain [("a", VObj 3)]; array [VNum 9]]
       (VObj 0) [VObj 2]
     = Done ([plain [("a", VObj 3)]; array [VNum 1; VNum 2; VNum 3];
              plain [("a", VObj 3)]; array [VNum 9]],
             VObj 0).
Proof. by vm_compute. Qed.

(** C3 (the code departs from it): for the patch key "a[0]" the incoming
    value does not replace the value of that key; [lodash.set] follows the
    key as a path and overwrites the first element of the array at "a", the
    store gaining no key "a[0]".  On an observable store, written by mobx's
    [set], the same patch does set the key. *)
Theorem setValues_compound_key :
  setValues 2
    [plain [("a", VObj 1)]; array [VNum 1; VNum 2; VNum 3];
     plain [("a[0]", VNum 9)]]
    (VObj 0) [VObj 2]
  = Done ([plain [("a", VObj 1)]; array [VNum 9; VNum 2; VNum 3];
           plain [("a[0]", VNum 9)]],
          VObj 0)
  /\ setValues 2
       [Object ObjectPrototype true [("a", VObj 1)];
        array [VNum 1; VNum 2; VNum 3]; plain [("a[0]", VNum 9)]]
       (VObj 0) [VObj 2]
     = Done ([Object ObjectPrototype true [("a", VObj 1); ("a[0]", VNum 9)];
              array [VNum 1; VNum 2; VNum 3]; plain [("a[0]", VNum 9)]],
             VObj 0).
Proof. by vm_compute. Qed.

(** ** [cloneByNamePathList] *)

(** The example of the specification: only the listed path is copied. *)
Example cloneByNamePathList_example :
  cloneByNamePathList
    [plain [("a", VNum 1); ("b", VObj 1)]; plain [("c", VNum 2); ("d", VNum 3)]]
    (VObj 0) [[Str "b"; Str "c"]]
  = Some ([plain [("a", VNum 1); ("b", VObj 1)];
           plain [("c", VNum 2); ("d", VNum 3)];
           plain [("b", VObj 3)]; plain [("c", VNum 2)]],
          VObj 2).
Proof. by vm_compute. Qed.

(** With the empty path listed the result is the store itself and no new
    object; and after ['a'] the path ['a', 'b'] puts a container where the
    value of the store at ['a'] was copied. *)
Lemma cloneByNamePathList_not_exact :
  cloneByNamePathList
    [plain [("a", VNum 1); ("b", VObj 1)]; plain [("c", VNum 2); ("d", VNum 3)]]
    (VObj 0) [[]]
  = Some ([plain [("a", VNum 1); ("b", VObj 1)];
           plain [("c", VNum 2); ("d", VNum 3)]; plain []],
          VObj 0)
  /\ cloneByNamePathList [plain [("a", VNum 1)]] (VObj 0)
       [[Str "a"]; [Str "a"; Str "b"]]
     = Some ([plain [("a", VNum 1)]; plain [("a", VObj 2)];
              plain [("b", VUndefined)]],
             VObj 1).
Proof. by vm_compute. Qed.

(** ** [lodash.set] on a key it keeps as it is *)

Lemma assoc_set_same {V} k (v : V) props :
  assoc k props = Some v -> assoc_set k v props = props.
Proof.
  induction props as [|[k' v'] props IH]; simpl; [done|].
  destruct (decide (k = k')) as [->|Hne].
  - by intros [= ->].
  - intros H. by rewrite IH.
Qed.

Lemma put_prop_same h l k v o :
  h !! l = Some o -> assoc k (obj_props o) = Some v -> put_prop h l k v = h.
Proof.
  intros Ho Hk. unfold put_prop. apply list_eq. intros i.
  destruct (decide (l = i)) as [<-|Hne].
  - rewrite list_lookup_alter_eq, Ho. simpl.
    rewrite (assoc_set_same _ _ _ Hk). by destruct o.
  - by rewrite list_lookup_alter_ne.
Qed.

Lemma assignValue_put h l k v :
  Lodash.assignValue h (VObj l) k v = put_prop h l k v.
Proof.
  unfold Lodash.assignValue, assign, has_prop, prop, find_prop, own_prop.
  destruct (h !! l) as [o|] eqn:Ho.
  - destruct (assoc k (obj_props o)) as [w|] eqn:Hk; simpl; [|done].
    rewrite andb_false_r, orb_false_r.
    unfold strict_eq. case_bool_decide as Hw; simpl; [|done].
    subst w. symmetry. by apply (put_prop_same _ _ _ _ o).
  - done.
Qed.

Lemma set_simple h l s v :
  simple_segment s = true ->
  Lodash.set h (VObj l) s v = put_prop h l (toKey s) v.
Proof.
  unfold simple_segment. intros [Hkey Hsafe%negb_true_iff]%andb_true_iff.
  unfold Lodash.set, Lodash.castPath. simpl.
  assert (Lodash.isKey h (VObj l) s = true) as ->.
  { destruct s as [n|k]; simpl; [done|].
    destruct (orb_prop _ _ Hkey) as [H|H]; rewrite H; [done|].
    by rewrite orb_true_r. }
  simpl. rewrite Hsafe. apply assignValue_put.
Qed.

(** ** Stores of fresh objects: the shape and its layout in the heap *)

Lemma assoc_assoc_set {V} k k' (v : V) kids :
  assoc k' (assoc_set k v kids)
  = if decide (k' = k) then Some v else assoc k' kids.
Proof.
  case_decide as Hk.
  - subst. apply assoc_set_eq.
  - by apply assoc_set_ne.
Qed.

Lemma assoc_props_of k kids : assoc k (props_of kids) = root <$> assoc k kids.
Proof.
  induction kids as [|[k' s] kids IH]; simpl; [done|].
  by case_decide.
Qed.

Lemma props_of_assoc_set k s kids :
  props_of (assoc_set k s kids) = assoc_set k (root s) (props_of kids).
Proof.
  induction kids as [|[k' s'] kids IH]; simpl; [done|].
  case_decide; simpl; [done|]. by rewrite <- IH.
Qed.

Lemma node_at_leaf v q l : ~ node_at (TLeaf v) q l.
Proof. intros [kids H]. by destruct q. Qed.

Lemma node_at_nil l kids l' : node_at (TNode l kids) [] l' <-> l' = l.
Proof.
  split.
  - by intros [kids' [= -> _]].
  - intros ->. by exists kids.
Qed.

Lemma node_at_cons l kids k q l' :
  node_at (TNode l kids) (k :: q) l'
  <-> exists s, assoc k kids = Some s /\ node_at s q l'.
Proof.
  unfold node_at; simpl. destruct (assoc k kids) as [s|].
  - split; [intros H; by exists s | by intros (s' & [= <-] & H)].
  - split; [by intros [? ?] | by intros (? & ? & ?)].
Qed.

Lemma dom_leaf v l : ~ dom (TLeaf v) l.
Proof. intros [q H]. by apply node_at_leaf in H. Qed.

Lemma dom_node l kids l' :
  dom (TNode l kids) l'
  <-> l' = l \/ exists k s, assoc k kids = Some s /\ dom s l'.
Proof.
  split.
  - intros [[|k q] H].
    + left. by apply node_at_nil in H.
    + right. apply node_at_cons in H as (s & Hs & H). exists k, s.
      split; [done | by exists q].
  - intros [->|(k & s & Hs & q & H)].
    + exists []. by apply node_at_nil.
    + exists (k :: q). apply node_at_cons. by exists s.
Qed.

Lemma laid_leaf h v : laid h (TLeaf v).
Proof. intros [|k q] l kids H; done. Qed.

Lemma laid_node h l kids :
  laid h (TNode l kids)
  <-> h !! l = Some (plain (props_of kids))
      /\ forall k s, assoc k kids = Some s -> laid h s.
Proof.
  split.
  - intros H. split; [by apply (H []) |].
    intros k s Hs q l' kids' Hq. apply (H (k :: q)). simpl. by rewrite Hs.
  - intros [Hl Hk] [|k q] l' kids' Hq; simpl in Hq.
    + by injection Hq as <- <-.
    + destruct (assoc k kids) as [s|] eqn:Hs; [|done]. by apply (Hk k s Hs q).
Qed.

Lemma laid_frame h h' t :
  laid h t -> (forall l, dom t l -> h' !! l = h !! l) -> laid h' t.
Proof.
  intros H Hf q l kids Hq. rewrite Hf; [by apply (H q)|].
  exists q. by exists kids.
Qed.

Lemma tree_shaped_leaf v : tree_shaped (TLeaf v).
Proof. intros q1 q2 l H. by apply node_at_leaf in H. Qed.

Lemma tree_shaped_node l kids :
  tree_shaped (TNode l kids)
  <-> (forall k s, assoc k kids = Some s -> tree_shaped s /\ ~ dom s l)
      /\ (forall k k' s s' l', k <> k' ->
            assoc k kids = Some s -> assoc k' kids = Some s' ->
            dom s l' -> dom s' l' -> False).
Proof.
  split.
  - intros H. split.
    + intros k s Hs. split.
      * intros q1 q2 l' H1 H2.
        assert (k :: q1 = k :: q2) as [= ?]; [|done].
        apply (H _ _ l'); apply node_at_cons; by exists s.
      * intros [q Hq].
        assert (k :: q = []); [|done].
        apply (H _ _ l); [apply node_at_cons; by exists s | by apply node_at_nil].
    + intros k k' s s' l' Hne Hs Hs' [q Hq] [q' Hq'].
      assert (k :: q = k' :: q') as [= ? ?]; [|done].
      apply (H _ _ l'); apply node_at_cons; by eexists.
  - intros [Hk Hd] [|k1 q1] [|k2 q2] l' H1 H2; [done| | |].
    + apply node_at_nil in H1 as ->.
      apply node_at_cons in H2 as (s & Hs & H2).
      destruct (Hk _ _ Hs) as [_ []]. by exists q2.
    + apply node_at_nil in H2 as ->.
      apply node_at_cons in H1 as (s & Hs & H1).
      destruct (Hk _ _ Hs) as [_ []]. by exists q1.
    + apply node_at_cons in H1 as (s1 & Hs1 & H1).
      apply node_at_cons in H2 as (s2 & Hs2 & H2).
      destruct (decide (k1 = k2)) as [->|Hne].
      * rewrite Hs1 in Hs2. injection Hs2 as <-.
        f_equal. by apply (proj1 (Hk _ _ Hs1) _ _ l').
      * destruct (Hd k1 k2 s1 s2 l' Hne Hs1 Hs2); [by exists q1 | by exists q2].
Qed.

Lemma bounded_leaf lo hi v : bounded lo hi (TLeaf v).
Proof. intros l H. by apply dom_leaf in H. Qed.

Lemma bounded_node lo hi l kids :
  bounded lo hi (TNode l kids)
  <-> lo <= l < hi /\ forall k s, assoc k kids = Some s -> bounded lo hi s.
Proof.
  split.
  - intros H. split.
    + apply H, dom_node. by left.
    + intros k s Hs l' Hl'. apply H, dom_node. right. by exists k, s.
  - intros [Hl Hk] l' [->|(k & s & Hs & Hd)]%dom_node; [done|].
    by apply (Hk k s).
Qed.

Lemma bounded_weaken lo hi hi' t : bounded lo hi t -> hi <= hi' -> bounded lo hi' t.
Proof. intros H Hle l Hl. specialize (H l Hl). lia. Qed.

(** ** [setValue] on a store of fresh objects *)

(** From a store that is no object (a falsy one or a scalar) [setValue]
    allocates a chain of one-key objects and touches nothing else. *)
Lemma setValue_path_fresh path : forall h store v,
  not_object store = true ->
  exists h',
    setValue_path h store path v
    = Some (h', root (chain (length h) (keys_of path) v))
    /\ laid h' (chain (length h) (keys_of path) v)
    /\ tree_shaped (chain (length h) (keys_of path) v)
    /\ bounded (length h) (length h') (chain (length h) (keys_of path) v)
    /\ length h <= length h'
    /\ forall l, l < length h -> h' !! l = h !! l.
Proof.
  induction path as [|s path IH]; intros h store v Hstore; simpl.
  - exists h. split; [done|]. split; [apply laid_leaf|].
    split; [apply tree_shaped_leaf|]. split; [apply bounded_leaf|]. done.
  - destruct (IH (h ++ [plain []]) VNull v eq_refl)
      as (h2 & Hset & Hlaid & Hts & Hb & Hlen & Hfr).
    rewrite length_app in Hset, Hlaid, Hts, Hb, Hlen, Hfr. simpl in *.
    rewrite Nat.add_1_r in Hset, Hlaid, Hts, Hb, Hlen, Hfr.
    set (c := chain (S (length h)) (keys_of path) v) in *.
    assert (Hn : h2 !! length h = Some (plain [])).
    { rewrite Hfr by lia. by rewrite lookup_app_r, Nat.sub_diag. }
    assert (Hfresh : forall l, dom c l ->
                put_prop h2 (length h) (toKey s) (root c) !! l = h2 !! l).
    { intros l Hl. apply put_prop_lookup_ne. specialize (Hb l Hl). lia. }
    exists (put_prop h2 (length h) (toKey s) (root c)).
    split.
    { destruct (truthy store) eqn:Ht; simpl.
      - rewrite bool_decide_eq_false_2 by (by destruct store).
        by rewrite Hset.
      - by destruct s; rewrite Hset. }
    split; [|split; [|split; [|split]]].
    + apply laid_node. split.
      * by rewrite (put_prop_lookup _ _ _ _ _ Hn).
      * intros k s0 Hk. simpl in Hk. case_decide; [|done].
        injection Hk as <-. by apply (laid_frame h2).
    + apply tree_shaped_node. split.
      * intros k s0 Hk. simpl in Hk. case_decide; [|done].
        injection Hk as <-. split; [done|].
        intros Hd. specialize (Hb _ Hd). lia.
      * intros k k' s0 s' l' Hne Hk Hk'. simpl in Hk, Hk'.
        repeat case_decide; congruence.
    + apply bounded_node. rewrite put_prop_length. split; [lia|].
      intros k s0 Hk. simpl in Hk. case_decide; [|done].
      injection Hk as <-. intros l Hl. specialize (Hb l Hl). lia.
    + rewrite put_prop_length. lia.
    + intros l Hl. rewrite put_prop_lookup_ne by lia.
      rewrite Hfr by lia. by rewrite lookup_app_l.
Qed.

(** Writing the new subtree [s'] under the key [k] of a node. *)
Lemma attach h h1 n0 l kids k s' :
  laid h (TNode l kids) -> tree_shaped (TNode l kids) ->
  bounded n0 (length h) (TNode l kids) ->
  laid h1 s' -> tree_shaped s' -> bounded n0 (length h1) s' ->
  length h <= length h1 ->
  (forall l', dom s' l' ->
     (exists s, assoc k kids = Some s /\ dom s l') \/ length h <= l') ->
  (forall l', l' < length h ->
     ~ (exists s, assoc k kids = Some s /\ dom s l') -> h1 !! l' = h !! l') ->
  laid (put_prop h1 l k (root s')) (TNode l (assoc_set k s' kids))
  /\ tree_shaped (TNode l (assoc_set k s' kids))
  /\ bounded n0 (length (put_prop h1 l k (root s'))) (TNode l (assoc_set k s' kids))
  /\ (forall l', dom (TNode l (assoc_set k s' kids)) l' ->
        dom (TNode l kids) l' \/ length h <= l')
  /\ (forall l', l' < length h -> ~ dom (TNode l kids) l' ->
        put_prop h1 l k (root s') !! l' = h !! l').
Proof.
  intros [Hl Hk]%laid_node [Hts1 Hts2]%tree_shaped_node [Hbl Hbk]%bounded_node
         Hlaid' Hts' Hb' Hlen Hdom' Hfr.
  assert (Hnot : ~ dom s' l).
  { intros [(s & Hs & Hd)|?]%Hdom'; [|lia]. by destruct (Hts1 _ _ Hs). }
  assert (Hl1 : h1 !! l = Some (plain (props_of kids))).
  { rewrite Hfr; [done | lia |]. intros (s & Hs & Hd). by destruct (Hts1 _ _ Hs). }
  split; [|split; [|split; [|split]]].
  - apply laid_node. split.
    + by rewrite (put_prop_lookup _ _ _ _ _ Hl1), props_of_assoc_set.
    + intros k' s0. rewrite assoc_assoc_set. case_decide as Hkk.
      * intros [= <-]. apply (laid_frame h1); [done|].
        intros l' Hd. apply put_prop_lookup_ne. by intros <-.
      * intros Hs0. apply (laid_frame h); [by apply (Hk k')|].
        intros l' Hd.
        rewrite put_prop_lookup_ne
          by (intros <-; by destruct (Hts1 _ _ Hs0)).
        apply Hfr; [apply (Hbk _ _ Hs0 _ Hd)|].
        intros (s & Hs & Hd'). by apply (Hts2 k' k s0 s l').
  - apply tree_shaped_node. split.
    + intros k' s0. rewrite assoc_assoc_set. case_decide.
      * by intros [= <-].
      * apply Hts1.
    + intros k1 k2 s1 s2 l' Hne. rewrite !assoc_assoc_set.
      repeat case_decide; subst; try done.
      * intros [= <-] Hs2 [(s & Hs & Hd)|?]%Hdom' Hd2.
        -- by apply (Hts2 k k2 s s2 l').
        -- specialize (Hbk _ _ Hs2 _ Hd2). lia.
      * intros Hs1 [= <-] Hd1 [(s & Hs & Hd)|?]%Hdom'.
        -- by apply (Hts2 k1 k s1 s l').
        -- specialize (Hbk _ _ Hs1 _ Hd1). lia.
      * apply Hts2. done.
  - apply bounded_node. rewrite put_prop_length. split; [lia|].
    intros k' s0. rewrite assoc_assoc_set. case_decide.
    + by intros [= <-].
    + intros Hs0. apply (bounded_weaken _ (length h)); [by apply (Hbk k')|done].
  - intros l' [->|(k' & s0 & Hs0 & Hd)]%dom_node.
    + left. apply dom_node. by left.
    + rewrite assoc_assoc_set in Hs0. case_decide.
      * injection Hs0 as <-. apply Hdom' in Hd as [(s & Hs & Hd)|?]; [|by right].
        left. apply dom_node. right. by exists k, s.
      * left. apply dom_node. right. by exists k', s0.
  - intros l' Hl' Hnd.
    rewrite put_prop_lookup_ne.
    + apply Hfr; [done|]. intros (s & Hs & Hd). apply Hnd, dom_node.
      right. by exists k, s.
    + intros <-. apply Hnd, dom_node. by left.
Qed.

(** [setValue] on a store of shape [t] returns the store of shape
    [tset t path v], laid out again, and leaves every object outside the
    shape as it was. *)
Lemma setValue_path_trie path : forall t h v n0,
  simple_path path = true ->
  compat t (keys_of path) ->
  laid h t -> tree_shaped t -> bounded n0 (length h) t -> n0 <= length h ->
  exists h',
    setValue_path h (root t) path v
    = Some (h', root (tset (length h) t (keys_of path) v))
    /\ laid h' (tset (length h) t (keys_of path) v)
    /\ tree_shaped (tset (length h) t (keys_of path) v)
    /\ bounded n0 (length h') (tset (length h) t (keys_of path) v)
    /\ length h <= length h'
    /\ (forall l, dom (tset (length h) t (keys_of path) v) l ->
          dom t l \/ length h <= l)
    /\ (forall l, l < length h -> ~ dom t l -> h' !! l = h !! l).
Proof.
  induction path as [|seg path IH]; intros t h v n0 Hsimple Hcompat Hlaid Hts Hb Hn0.
  - exists h. simpl. split; [done|]. split; [apply laid_leaf|].
    split; [apply tree_shaped_leaf|]. split; [apply bounded_leaf|].
    split; [done|]. split; [|done]. intros l Hl. by apply dom_leaf in Hl.
  - simpl in Hsimple. apply andb_true_iff in Hsimple as [Hseg Hsimple].
    destruct t as [w|l kids]; [done|]. simpl in Hcompat.
    pose proof (proj1 (laid_node _ _ _) Hlaid) as [Hl Hk].
    pose proof (proj1 (tree_shaped_node _ _) Hts) as [Hts1 Hts2].
    pose proof (proj1 (bounded_node _ _ _ _) Hb) as [Hbl Hbk].
    assert (Hsub : exists h1 s',
      match assoc (toKey seg) kids with
      | Some s => s' = tset (length h) s (keys_of path) v
      | None => s' = chain (length h) (keys_of path) v
      end
      /\ setValue_path h (prop h (VObj l) (toKey seg)) path v = Some (h1, root s')
      /\ laid h1 s' /\ tree_shaped s' /\ bounded n0 (length h1) s'
      /\ length h <= length h1
      /\ (forall l', dom s' l' ->
            (exists s, assoc (toKey seg) kids = Some s /\ dom s l')
            \/ length h <= l')
      /\ (forall l', l' < length h ->
            ~ (exists s, assoc (toKey seg) kids = Some s /\ dom s l') ->
            h1 !! l' = h !! l')).
    { unfold prop, find_prop, own_prop. rewrite Hl. simpl.
      rewrite assoc_props_of.
      destruct (assoc (toKey seg) kids) as [s|] eqn:Hs; simpl.
      - destruct (IH s h v n0 Hsimple Hcompat (Hk _ _ Hs)
                    (proj1 (Hts1 _ _ Hs)) (Hbk _ _ Hs) Hn0)
          as (h1 & Hset & H1 & H2 & H3 & H4 & H5 & H6).
        exists h1, (tset (length h) s (keys_of path) v).
        repeat (split; [done|]). split.
        + intros l' [Hd|?]%H5; [left; by exists s | by right].
        + intros l' Hl' Hnd. apply H6; [done|]. intros Hd. apply Hnd. by exists s.
      - destruct (setValue_path_fresh path h VUndefined v eq_refl)
          as (h1 & Hset & H1 & H2 & H3 & H4 & H5).
        exists h1, (chain (length h) (keys_of path) v).
        repeat (split; [done|]). split; [|split; [|split]].
        + intros l' Hd. specialize (H3 l' Hd). lia.
        + done.
        + intros l' Hd. right. specialize (H3 l' Hd). lia.
        + intros l' Hl' _. by apply H5. }
    destruct Hsub as (h1 & s' & Hs' & Hset & H1 & H2 & H3 & H4 & H5 & H6).
    destruct (attach h h1 n0 l kids (toKey seg) s' Hlaid Hts Hb H1 H2 H3 H4 H5 H6)
      as (G1 & G2 & G3 & G4 & G5).
    assert (Ht' : tset (length h) (TNode l kids) (keys_of (seg :: path)) v
                  = TNode l (assoc_set (toKey seg) s' kids)).
    { simpl. destruct (assoc (toKey seg) kids); by rewrite Hs'. }
    rewrite Ht'.
    exists (put_prop h1 l (toKey seg) (root s')).
    split.
    { simpl. unfold get_prop. simpl. rewrite Hset.
      by rewrite set_simple by done. }
    repeat (split; [done|]). split; [|done].
    rewrite put_prop_length. lia.
Qed.

(** ** The shape after a write *)

Lemma tfind_app t q1 q2 :
  tfind t (q1 ++ q2)
  = match tfind t q1 with
    | Some s => tfind s q2
    | None => None
    end.
Proof.
  revert t. induction q1 as [|k q1 IH]; intros t; simpl; [done|].
  destruct t as [w|l kids]; [done|].
  destruct (assoc k kids); [apply IH | done].
Qed.

Lemma chain_leaf n ks v : tfind (chain n ks v) ks = Some (TLeaf v).
Proof.
  revert n. induction ks as [|k ks IH]; intros n; simpl; [done|].
  rewrite decide_True by done. apply IH.
Qed.

Lemma chain_positions n ks v q s :
  tfind (chain n ks v) q = Some s -> q `prefix_of` ks.
Proof.
  revert n q. induction ks as [|k ks IH]; intros n q; simpl.
  - destruct q; [intros _; apply prefix_nil | done].
  - destruct q as [|k' q]; [intros _; apply prefix_nil|]. simpl.
    case_decide as Hk; [|done]. subst k'.
    intros H. by apply prefix_cons, (IH (S n)).
Qed.

Lemma chain_inner n ks v q :
  q `prefix_of` ks -> q <> ks ->
  exists l kids, tfind (chain n ks v) q = Some (TNode l kids).
Proof.
  revert n q. induction ks as [|k ks IH]; intros n q Hp Hne.
  - apply prefix_nil_inv in Hp. done.
  - destruct q as [|k' q]; simpl; [by eexists _, _|].
    pose proof (prefix_cons_inv_1 _ _ _ _ Hp) as ->.
    apply prefix_cons_inv_2 in Hp.
    rewrite decide_True by done. apply IH; [done|]. congruence.
Qed.

Lemma tset_leaf n ks : forall t v,
  compat t ks -> tfind (tset n t ks v) ks = Some (TLeaf v).
Proof.
  induction ks as [|k ks IH]; intros t v Hc; simpl; [done|].
  destruct t as [w|l kids]; [done|]. simpl in *.
  rewrite assoc_set_eq.
  destruct (assoc k kids) as [s|]; [by apply IH | apply chain_leaf].
Qed.

Lemma tset_positions n ks : forall t v q s,
  tfind (tset n t ks v) q = Some s ->
  q `prefix_of` ks \/ tfind t q = Some s.
Proof.
  induction ks as [|k ks IH]; intros t v q s; simpl.
  - destruct q; [intros _; left; apply prefix_nil | done].
  - destruct t as [w|l kids]; [by right|].
    destruct q as [|k' q]; [intros _; left; apply prefix_nil|]. simpl.
    rewrite assoc_assoc_set. case_decide as Hk.
    + subst k'. destruct (assoc k kids) as [s0|].
      * intros [Hp|Hf]%IH; [left; by apply prefix_cons | by right].
      * intros Hp%chain_positions. left. by apply prefix_cons.
    + by right.
Qed.

Lemma tset_elsewhere n ks : forall t v q,
  ~ q `prefix_of` ks -> ~ ks `prefix_of` q ->
  tfind (tset n t ks v) q = tfind t q.
Proof.
  induction ks as [|k ks IH]; intros t v q Hq Hks.
  - destruct Hks. apply prefix_nil.
  - destruct q as [|k' q]; [destruct Hq; apply prefix_nil|].
    destruct t as [w|l kids]; [done|]. simpl.
    rewrite assoc_assoc_set. case_decide as Hk; [|done]. subst k'.
    assert (~ q `prefix_of` ks) by (intros Hx; by apply Hq, prefix_cons).
    assert (~ ks `prefix_of` q) by (intros Hx; by apply Hks, prefix_cons).
    destruct (assoc k kids) as [s0|]; [by apply IH|].
    destruct (tfind (chain n ks v) q) eqn:E; [|done].
    by apply chain_positions in E.
Qed.

Lemma tset_inner n ks : forall t v q,
  compat t ks -> q `prefix_of` ks -> q <> ks ->
  exists l kids, tfind (tset n t ks v) q = Some (TNode l kids).
Proof.
  induction ks as [|k ks IH]; intros t v q Hc Hp Hne.
  - apply prefix_nil_inv in Hp. done.
  - destruct t as [w|l kids]; [done|]. simpl in Hc.
    destruct q as [|k' q]; simpl; [by eexists _, _|].
    pose proof (prefix_cons_inv_1 _ _ _ _ Hp) as ->.
    apply prefix_cons_inv_2 in Hp.
    rewrite assoc_set_eq.
    destruct (assoc k kids) as [s0|].
    + apply IH; [done | done | congruence].
    + apply chain_inner; [done | congruence].
Qed.

(** A path that no leaf lies on can be written. *)
Lemma compat_intro ks : forall t,
  (forall q w, tfind t q = Some (TLeaf w) -> q `prefix_of` ks -> q = ks) ->
  compat t ks.
Proof.
  induction ks as [|k ks IH]; intros t H; simpl; [done|].
  destruct t as [w|l kids].
  - by specialize (H [] w eq_refl (prefix_nil _)).
  - destruct (assoc k kids) as [s|] eqn:Hs; [|done].
    apply IH. intros q w Hq Hp.
    assert (k :: q = k :: ks) as [= ?]; [|done].
    apply (H _ w); [simpl; by rewrite Hs | by apply prefix_cons].
Qed.

(** ** Reading a store of fresh objects *)

Lemma tget_laid h q : forall t,
  laid h t -> getValue_loop h (root t) q = tget h t q.
Proof.
  induction q as [|s q IH]; intros t Hlaid; simpl; [done|].
  destruct t as [w|l kids]; [done|].
  apply laid_node in Hlaid as [Hl Hk]. simpl.
  unfold get_prop, prop, find_prop, own_prop. simpl. rewrite Hl. simpl.
  rewrite assoc_props_of.
  destruct (assoc (toKey s) kids) as [sub|] eqn:Hs; simpl.
  - apply IH. by apply (Hk (toKey s)).
  - by apply getValue_loop_nullish.
Qed.

Lemma tget_tfind h q : forall t s,
  tfind t (keys_of q) = Some s -> tget h t q = Some (root s).
Proof.
  induction q as [|seg q IH]; intros t s; simpl.
  - by intros [= ->].
  - destruct t as [w|l kids]; [done|].
    destruct (assoc (toKey seg) kids); [apply IH | done].
Qed.

(** ** Reading the store of an enlarged heap *)

Lemma assoc_elem_of {V} k (v : V) props : assoc k props = Some v -> (k, v) ∈ props.
Proof.
  induction props as [|[k' v'] props IH]; simpl; [done|].
  case_decide.
  - intros [= ->]. subst. apply elem_of_cons. by left.
  - intros H'. apply elem_of_cons. right. by apply IH.
Qed.

Lemma string_member_closed n s k v :
  string_member s k = Some v -> closed_val n v = true.
Proof.
  unfold string_member. destruct (array_index k).
  - destruct (String.get _ s); [by intros [= <-] | done].
  - case_decide; [by intros [= <-] | done].
Qed.

Lemma prop_closed h v k :
  closed_heap h = true -> closed_val (length h) (prop h v k) = true.
Proof.
  intros Hc. unfold prop.
  destruct (find_prop h v k) as [w|] eqn:Hw; [|done]. simpl.
  assert (Hown : forall l, own_prop h l k = Some w ->
                           closed_val (length h) w = true).
  { intros l. unfold own_prop. destruct (h !! l) as [o|] eqn:Ho; [|done].
    intros Hk%assoc_elem_of.
    unfold closed_heap in Hc. rewrite forallb_forall in Hc.
    specialize (Hc o). rewrite forallb_forall in Hc.
    apply (Hc (proj1 (list_elem_of_In _ _) (list_elem_of_lookup_2 _ _ _ Ho))
              (k, w)).
    by apply list_elem_of_In. }
  destruct v; simpl in Hw; try done; eauto using string_member_closed.
Qed.

Lemma prop_frame h h' v k :
  closed_val (length h) v = true ->
  (forall l, l < length h -> h' !! l = h !! l) ->
  prop h' v k = prop h v k.
Proof.
  intros Hv Hfr. unfold prop, find_prop, own_prop.
  destruct v; simpl in *; try done;
    by rewrite Hfr by (by apply Nat.ltb_lt).
Qed.

Lemma getValue_loop_frame h h' path : forall v,
  closed_heap h = true -> closed_val (length h) v = true ->
  (forall l, l < length h -> h' !! l = h !! l) ->
  getValue_loop h' v path = getValue_loop h v path.
Proof.
  induction path as [|s path IH]; intros v Hc Hv Hfr; simpl; [done|].
  destruct (nullish v) eqn:Hn; [done|].
  unfold get_prop. rewrite Hn. rewrite (prop_frame h h') by done.
  apply IH; [done | by apply prop_closed | done].
Qed.

Lemma getValue_loop_keys h p : forall p' v,
  keys_of p = keys_of p' -> getValue_loop h v p = getValue_loop h v p'.
Proof.
  induction p as [|s p IH]; intros [|s' p'] v Hk; simpl in *; try done.
  injection Hk as Hs Hk.
  destruct (nullish v) eqn:Hn; [done|].
  unfold get_prop. rewrite Hn, Hs. by apply IH.
Qed.

(** ** [cloneByNamePathList] on paths written key by key *)

Lemma prefix_free_spec paths p q :
  prefix_free paths = true ->
  p ∈ paths -> q ∈ paths -> p `prefix_of` q -> p = q.
Proof.
  unfold prefix_free. rewrite forallb_forall. intros H Hp Hq Hpre.
  specialize (H p (proj1 (list_elem_of_In _ _) Hp)).
  rewrite forallb_forall in H.
  specialize (H q (proj1 (list_elem_of_In _ _) Hq)).
  apply orb_true_iff in H as [H|H].
  - apply negb_true_iff, bool_decide_eq_false in H. done.
  - by apply bool_decide_eq_true in H.
Qed.

(** Below a place of a shape laid out in the heap, a path that shares no
    listed path leaves the own properties. *)
Lemma own_at_absent h t (seen : list (list segment)) :
  laid h t ->
  (forall q s, tfind t q = Some s ->
     q = [] \/ exists p, p ∈ seen /\ q `prefix_of` keys_of p) ->
  (forall q w, tfind t q = Some (TLeaf w) -> exists p, p ∈ seen /\ q = keys_of p) ->
  forall q2 q1 s,
    tfind t q1 = Some s -> q2 <> [] ->
    (forall p, p ∈ seen ->
       ~ keys_of p `prefix_of` (q1 ++ q2)
       /\ ~ (q1 ++ q2) `prefix_of` keys_of p) ->
    own_at h (root s) q2 = None.
Proof.
  intros Hlaid I2 I3.
  induction q2 as [|k q2 IH]; intros q1 s Hs Hne Hun; [done|].
  destruct s as [w|l kids].
  - destruct (I3 _ _ Hs) as (p & Hp & ->).
    destruct (proj1 (Hun p Hp)). by apply prefix_app_r.
  - simpl. unfold own_prop. rewrite (Hlaid _ _ _ Hs). simpl.
    rewrite assoc_props_of.
    destruct (assoc k kids) as [sub|] eqn:Hsub; [|done]. simpl.
    assert (Hfind : tfind t (q1 ++ [k]) = Some sub).
    { rewrite tfind_app, Hs. simpl. by rewrite Hsub. }
    destruct q2 as [|k2 q2].
    + destruct (I2 _ _ Hfind) as [Hnil|(p & Hp & Hpre)].
      * by destruct q1.
      * by destruct (proj2 (Hun p Hp)).
    + apply (IH (q1 ++ [k])); [done | done |].
      intros p Hp. rewrite <- app_assoc. by apply Hun.
Qed.

Lemma clone_inv_step h store hi t seen p :
  closed_heap h = true -> closed_val (length h) store = true ->
  clone_inv h store hi t seen ->
  p <> [] -> simple_path p = true ->
  prefix_free (keys_of <$> (seen ++ [p])) = true ->
  exists w h' t',
    getValue hi store (Many p) = Some w
    /\ setValue hi (VObj (length h)) (Many p) w = Some (h', VObj (length h))
    /\ clone_inv h store h' t' (seen ++ [p]).
Proof.
  intros Hch Hcs (Hroot & Hlaid & Hts & Hb & Hlen & Hfr & I1 & I2 & I3)
         Hne Hsimple Hpf.
  destruct Hroot as [kids ->].
  destruct (getValue_loop_total h p store) as [w Hw].
  assert (Hin : forall p0, p0 ∈ seen ++ [p] ->
                keys_of p0 ∈ keys_of <$> (seen ++ [p])).
  { intros p0 Hp0. by apply list_elem_of_fmap_2. }
  assert (Hp : p ∈ seen ++ [p]) by (apply elem_of_app; right; by apply list_elem_of_singleton).
  assert (Hcompat : compat (TNode (length h) kids) (keys_of p)).
  { apply compat_intro. intros q w' Hq Hpre.
    destruct (I3 _ _ Hq) as (p0 & Hp0 & ->).
    apply (prefix_free_spec _ _ _ Hpf); [|by apply Hin|done].
    apply Hin, elem_of_app. by left. }
  destruct (setValue_path_trie p (TNode (length h) kids) hi w (length h)
              Hsimple Hcompat Hlaid Hts Hb Hlen)
    as (h' & Hset & G1 & G2 & G3 & G4 & G5 & G6).
  set (t' := tset (length hi) (TNode (length h) kids) (keys_of p) w) in *.
  assert (Hroot' : exists kids', t' = TNode (length h) kids').
  { unfold t'. destruct p as [|seg p]; [done|]. simpl. by eexists. }
  exists w, h', t'. split; [|split].
  - unfold getValue. simpl. rewrite <- Hw. by apply getValue_loop_frame.
  - unfold setValue. simpl. simpl in Hset. rewrite Hset.
    destruct Hroot' as [kids' ->]. done.
  - split; [done|]. split; [done|]. split; [done|]. split; [done|].
    split; [lia|]. split; [|split; [|split]].
    + intros l Hl. rewrite G6; [by apply Hfr | lia |].
      intros Hd. specialize (Hb l Hd). lia.
    + intros p0 [Hp0|Hp0%list_elem_of_singleton]%elem_of_app.
      * destruct (I1 _ Hp0) as (w0 & Hw0 & Hf0).
        exists w0. split; [done|].
        destruct (decide (keys_of p0 = keys_of p)) as [Heq|Hkne].
        -- rewrite (getValue_loop_keys _ _ _ _ Heq), Hw in Hw0.
           injection Hw0 as <-. rewrite Heq. by apply tset_leaf.
        -- unfold t'. rewrite tset_elsewhere; [done| |].
           ++ intros Hpre. apply Hkne.
              apply (prefix_free_spec _ _ _ Hpf); [|by apply Hin|done].
              apply Hin, elem_of_app. by left.
           ++ intros Hpre. apply Hkne. symmetry.
              apply (prefix_free_spec _ _ _ Hpf); [by apply Hin| |done].
              apply Hin, elem_of_app. by left.
      * subst p0. exists w. split; [done|]. by apply tset_leaf.
    + intros q s [Hpre|Hq]%tset_positions.
      * right. by exists p.
      * destruct (I2 _ _ Hq) as [?|(p0 & Hp0 & Hpre)]; [by left|].
        right. exists p0. split; [|done]. apply elem_of_app. by left.
    + intros q w' Hq. pose proof Hq as [Hpre|Hq']%tset_positions.
      * destruct (decide (q = keys_of p)) as [->|Hqne]; [by exists p|].
        destruct (tset_inner (length hi) (keys_of p)
                    (TNode (length h) kids) w q Hcompat Hpre Hqne)
          as (l & kids' & Hq'').
        unfold t' in Hq. congruence.
      * destruct (I3 _ _ Hq') as (p0 & Hp0 & ->).
        exists p0. split; [|done]. apply elem_of_app. by left.
Qed.

Lemma cloneByNamePathList_each_inv h store rest : forall hi t seen,
  closed_heap h = true -> closed_val (length h) store = true ->
  clone_inv h store hi t seen ->
  forallb (fun p => negb (bool_decide (p = [])) && simple_path p) rest = true ->
  prefix_free (keys_of <$> (seen ++ rest)) = true ->
  exists h' t',
    cloneByNamePathList_each hi store (VObj (length h)) rest
    = Some (h', VObj (length h))
    /\ clone_inv h store h' t' (seen ++ rest).
Proof.
  induction rest as [|p rest IH]; intros hi t seen Hch Hcs Hinv Hok Hpf.
  - exists hi, t. simpl. by rewrite app_nil_r.
  - simpl in Hok. apply andb_true_iff in Hok as [Hp Hok].
    apply andb_true_iff in Hp as [Hne%negb_true_iff%bool_decide_eq_false Hsimple].
    assert (Hpf1 : prefix_free (keys_of <$> (seen ++ [p])) = true).
    { unfold prefix_free in *. rewrite forallb_forall in *.
      intros x Hx. assert (Hx' : In x (keys_of <$> seen ++ p :: rest)).
      { apply list_elem_of_In. apply list_elem_of_In in Hx.
        apply list_elem_of_fmap in Hx as (y & -> & Hy).
        apply list_elem_of_fmap_2.
        apply elem_of_app in Hy as [Hy|Hy%list_elem_of_singleton];
          apply elem_of_app; [by left | right; subst; apply elem_of_cons; by left]. }
      specialize (Hpf x Hx'). rewrite forallb_forall in *.
      intros y Hy. apply Hpf.
      apply list_elem_of_In. apply list_elem_of_In in Hy.
      apply list_elem_of_fmap in Hy as (z & -> & Hz).
      apply list_elem_of_fmap_2.
      apply elem_of_app in Hz as [Hz|Hz%list_elem_of_singleton];
        apply elem_of_app; [by left | right; subst; apply elem_of_cons; by left]. }
    destruct (clone_inv_step h store hi t seen p Hch Hcs Hinv Hne Hsimple Hpf1)
      as (w & h1 & t1 & Hget & Hset & Hinv1).
    simpl. rewrite Hget, Hset.
    replace (seen ++ p :: rest) with ((seen ++ [p]) ++ rest) in *
      by (by rewrite <- app_assoc).
    by apply (IH h1 t1).
Qed.

(** C5, amended: for paths that are not empty, whose segments [lodash.set]
    writes as one key, whose numbers are exact, and none of which continues
    another, [cloneByNamePathList] returns a new object, leaves every object
    of the heap it was given as it was, holds at each listed path the value
    the store has there (a path listed again is written again with that
    same value), and owns nothing at a path of keys that shares no listed
    path: on the way along such a path some container of the result lacks
    the next key as an own property, so the containers on the way are absent
    too.  For the store {a: 1, b: {c: 2, d: 3}} and the path ['b', 'c'] the
    result is {b: {c: 2}}. *)
Theorem cloneByNamePathList_spec :
  (forall (h : heap) (store : val) (namePathList : list (list segment)),
      closed_heap h = true -> closed_val (length h) store = true ->
      plain_paths namePathList = true ->
      forallb exact_path namePathList = true ->
      exists h',
        cloneByNamePathList h store namePathList = Some (h', VObj (length h))
        /\ h !! length h = None
        /\ (forall l, l < length h -> h' !! l = h !! l)
        /\ (forall p, p ∈ namePathList ->
              getValue h' (VObj (length h)) (Many p) = getValue h store (Many p))
        /\ (forall ks : list string, ks <> [] ->
              (forall p, p ∈ namePathList ->
                 ~ keys_of p `prefix_of` ks /\ ~ ks `prefix_of` keys_of p) ->
              own_at h' (VObj (length h)) ks = None))
  /\ cloneByNamePathList
       [plain [("a", VNum 1); ("b", VObj 1)];
        plain [("c", VNum 2); ("d", VNum 3)]]
       (VObj 0) [[Str "b"; Str "c"]]
     = Some ([plain [("a", VNum 1); ("b", VObj 1)];
              plain [("c", VNum 2); ("d", VNum 3)];
              plain [("b", VObj 3)]; plain [("c", VNum 2)]],
             VObj 2).
Proof.
  split; [|by vm_compute].
  intros h store namePathList Hch Hcs [Hok Hpf]%andb_true_iff _.
  unfold cloneByNamePathList, alloc.
  assert (Hinv0 : clone_inv h store (h ++ [plain []]) (TNode (length h) []) []).
  { split; [by eexists|]. split.
    { apply laid_node. split; [|done]. by rewrite lookup_app_r, Nat.sub_diag. }
    split.
    { apply tree_shaped_node. split; done. }
    split.
    { apply bounded_node. rewrite length_app. simpl. split; [lia | done]. }
    split; [rewrite length_app; lia|].
    split; [intros l Hl; by rewrite lookup_app_l|].
    split; [by intros p Hp%elem_of_nil|].
    split.
    - intros [|k q] s; [by left|done].
    - intros [|k q] w; done. }
  destruct (cloneByNamePathList_each_inv h store namePathList
              (h ++ [plain []]) (TNode (length h) []) [] Hch Hcs Hinv0 Hok Hpf)
    as (h' & t' & Heach & Hinv).
  simpl in Hinv.
  destruct Hinv as (Hroot & Hlaid & Hts & Hb & Hlen & Hfr & I1 & I2 & I3).
  destruct Hroot as [kids ->].
  exists h'. split; [done|].
  split; [by apply lookup_ge_None|]. split; [done|]. split.
  - intros p Hp. destruct (I1 p Hp) as (w & Hw & Hf).
    unfold getValue. simpl. rewrite Hw.
    change (VObj (length h)) with (root (TNode (length h) kids)).
    rewrite (tget_laid h' p _ Hlaid). by rewrite (tget_tfind _ _ _ _ Hf).
  - intros ks Hks Hun.
    change (VObj (length h)) with (root (TNode (length h) kids)).
    by apply (own_at_absent h' (TNode (length h) kids) namePathList Hlaid I2 I3
                ks []).
Qed.

Lemma cloneByNamePathList_spec_witness :
  exists h',
    cloneByNamePathList
      [plain [("a", VNum 1); ("b", VObj 1)]; array [VNum 2; VNum 3]]
      (VObj 0) [[Str "b"; Num 1]; [Str "a"]; [Str "b"; Num 1]]
    = Some (h', VObj 2)
    /\ [plain [("a", VNum 1); ("b", VObj 1)]; array [VNum 2; VNum 3]] !! 2 = None
    /\ (forall l, l < 2 ->
          h' !! l
          = [plain [("a", VNum 1); ("b", VObj 1)]; array [VNum 2; VNum 3]] !! l)
    /\ (forall p, p ∈ [[Str "b"; Num 1]; [Str "a"]; [Str "b"; Num 1]] ->
          getValue h' (VObj 2) (Many p)
          = getValue
              [plain [("a", VNum 1); ("b", VObj 1)]; array [VNum 2; VNum 3]]
              (VObj 0) (Many p))
    /\ (forall ks : list string, ks <> [] ->
          (forall p, p ∈ [[Str "b"; Num 1]; [Str "a"]; [Str "b"; Num 1]] ->
             ~ keys_of p `prefix_of` ks /\ ~ ks `prefix_of` keys_of p) ->
          own_at h' (VObj 2) ks = None).
Proof.
  apply (proj1 cloneByNamePathList_spec
           [plain [("a", VNum 1); ("b", VObj 1)]; array [VNum 2; VNum 3]]
           (VObj 0) [[Str "b"; Num 1]; [Str "a"]; [Str "b"; Num 1]]);
    by vm_compute.
Defined.

(** ** Reading back what [setValue] wrote *)

Lemma setValue_path_read_back path : forall h store v,
  simple_path path = true ->
  NoDup (walk h store path) ->
  (forall l, l ∈ walk h store path -> l < length h) ->
  exists h' r,
    setValue_path h store path v = Some (h', r)
    /\ length h <= length h'
    /\ (forall l, l < length h -> l ∉ walk h store path -> h' !! l = h !! l)
    /\ (forall h'',
          (forall l, l ∈ walk h store path \/ length h <= l -> h'' !! l = h' !! l) ->
          getValue_loop h'' r path = Some v).
Proof.
  induction path as [|s path IH]; intros h store v Hsimple Hnd Hlt.
  - exists h, v. simpl. done.
  - simpl in Hsimple. apply andb_true_iff in Hsimple as [Hs Hsimple].
    destruct (not_object store) eqn:Hstore.
    + destruct (setValue_path_fresh (s :: path) h store v Hstore)
        as (h' & Hset & Hlaid & _ & Hb & Hlen & Hfr).
      exists h', (root (chain (length h) (keys_of (s :: path)) v)).
      split; [done|]. split; [done|]. split; [by intros l Hl _; apply Hfr|].
      intros h'' Hagree.
      rewrite (tget_laid h'' (s :: path)).
      * by rewrite (tget_tfind _ _ _ _ (chain_leaf _ _ _)).
      * apply (laid_frame h'); [done|]. intros l Hl. apply Hagree. right.
        specialize (Hb l Hl). lia.
    + destruct store as [| | | | | |l]; try done. simpl in Hnd, Hlt.
      apply NoDup_cons in Hnd as [Hl Hnd].
      assert (Hll : l < length h) by (apply Hlt, elem_of_cons; by left).
      destruct (lookup_lt_is_Some_2 h l Hll) as [o Ho].
      destruct (IH h (prop h (VObj l) (toKey s)) v Hsimple Hnd)
        as (h1 & r1 & Hset & Hlen & Hfr & Hstable).
      { intros l' Hl'. apply Hlt, elem_of_cons. by right. }
      assert (Ho1 : h1 !! l = Some o) by (by rewrite Hfr).
      exists (put_prop h1 l (toKey s) r1), (VObj l).
      split; [|split; [|split]].
      * simpl. unfold get_prop. simpl. rewrite Hset.
        by rewrite set_simple.
      * rewrite put_prop_length. lia.
      * intros l' Hl' Hnot. simpl in Hnot. rewrite not_elem_of_cons in Hnot.
        rewrite put_prop_lookup_ne by (by intros <-; destruct Hnot).
        apply Hfr; [done | by destruct Hnot].
      * intros h'' Hagree. simpl in *. unfold get_prop. simpl.
        assert (Hr : prop h'' (VObj l) (toKey s) = r1).
        { unfold prop, find_prop, own_prop.
          rewrite Hagree by (left; apply elem_of_cons; by left).
          rewrite (put_prop_lookup _ _ _ _ _ Ho1). simpl.
          by rewrite assoc_set_eq. }
        rewrite Hr. apply Hstable. intros l' Hl'.
        rewrite Hagree.
        -- apply put_prop_lookup_ne. intros <-.
           destruct Hl' as [?|?]; [done | lia].
        -- destruct Hl' as [?|?]; [left; apply elem_of_cons; by right | by right].
Qed.

Lemma plain_walk_bound h path : forall store l,
  plain_walk h store path = true -> l ∈ walk h store path -> l < length h.
Proof.
  induction path as [|s path IH]; intros store l Hplain Hl.
  - by apply elem_of_nil in Hl.
  - destruct store as [| | | | | |l0]; try (by apply elem_of_nil in Hl).
    simpl in *. apply andb_true_iff in Hplain as [Hw Hplain].
    apply elem_of_cons in Hl as [->|Hl]; [|by apply (IH _ _ Hplain)].
    unfold written_plainly in Hw.
    destruct (h !! l0) eqn:E; [|done]. by apply lookup_lt_Some in E.
Qed.

(** X1: [getValue] reads back what [setValue] wrote, whatever the store, on
    a path whose segments [lodash.set] writes as single keys and whose
    numbers are exact, as long as the objects written into on the way are
    pairwise distinct (no container holds itself along the path) and each
    takes its key as a plain write: plain objects and arrays, no
    observables, and not the [length] of an array. *)
Theorem getValue_setValue_simple (h : heap) (store : val) (path : list segment)
    (v : val) :
  simple_path path = true ->
  exact_path path = true ->
  plain_walk h store path = true ->
  NoDup (walk h store path) ->
  exists h' r,
    setValue h store (Many path) v = Some (h', r)
    /\ getValue h' r (Many path) = Some v.
Proof.
  intros Hsimple _ Hplain Hnd.
  destruct (setValue_path_read_back path h store v Hsimple Hnd
              (fun l => plain_walk_bound h path store l Hplain))
    as (h' & r & Hset & _ & _ & Hstable).
  exists h', r. split; [done|]. by apply Hstable.
Qed.

Lemma getValue_setValue_simple_witness :
  exists h' r,
    setValue [plain [("a", VObj 1)]; array [VNum 5; VStr "x"]] (VObj 0)
      (Many [Str "a"; Num 1; Str "deep"]) (VBool true) = Some (h', r)
    /\ getValue h' r (Many [Str "a"; Num 1; Str "deep"]) = Some (VBool true).
Proof.
  apply (getValue_setValue_simple
           [plain [("a", VObj 1)]; array [VNum 5; VStr "x"]] (VObj 0)
           [Str "a"; Num 1; Str "deep"] (VBool true)).
  - by vm_compute.
  - by vm_compute.
  - by vm_compute.
  - apply (bool_decide_unpack _). by vm_compute.
Defined.

(** X2: From a store that is no object the same holds for every path: there the
    keys are written as they are. *)
Theorem getValue_setValue_fresh (h : heap) (store : val) (path : list segment)
    (v : val) :
  not_object store = true ->
  exists h' r,
    setValue h store (Many path) v = Some (h', r)
    /\ getValue h' r (Many path) = Some v.
Proof.
  intros Hstore.
  destruct (setValue_path_fresh path h store v Hstore)
    as (h' & Hset & Hlaid & _).
  exists h', (root (chain (length h) (keys_of path) v)).
  split; [done|]. unfold getValue. simpl.
  rewrite (tget_laid h' path _ Hlaid).
  by rewrite (tget_tfind _ _ _ _ (chain_leaf _ _ _)).
Qed.

Lemma getValue_setValue_fresh_witness :
  exists h' r,
    setValue [] VNull (Many [Str "a.b"; Num 0; Str "__proto__"]) (VNum 7)
    = Some (h', r)
    /\ getValue h' r (Many [Str "a.b"; Num 0; Str "__proto__"]) = Some (VNum 7).
Proof.
  apply (getValue_setValue_fresh [] VNull
           [Str "a.b"; Num 0; Str "__proto__"] (VNum 7)).
  reflexivity.
Defined.

(** X3: With a falsy store and a path that is not empty [setValue] returns a
    new plain object, for a numeric head segment as for a string one. *)
Theorem setValue_falsy_store_plain (h : heap) (store : val) (headPath : segment)
    (tailPath : list segment) (v : val) :
  truthy store = false ->
  exists h' o,
    setValue h store (Many (headPath :: tailPath)) v = Some (h', VObj (length h))
    /\ h !! length h = None
    /\ h' !! length h = Some o
    /\ obj_proto o = ObjectPrototype.
Proof.
  intros Hfalsy.
  assert (Hstore : not_object store = true) by (by destruct store).
  destruct (setValue_path_fresh (headPath :: tailPath) h store v Hstore)
    as (h' & Hset & Hlaid & _).
  simpl in Hlaid. apply laid_node in Hlaid as [Hl _].
  exists h', (plain (props_of [(toKey headPath,
                                chain (S (length h)) (keys_of tailPath) v)])).
  split; [done|]. split; [by apply lookup_ge_None|]. done.
Qed.

Lemma setValue_falsy_store_plain_witness :
  exists h' o,
    setValue [] (VNum 0) (Many [Num 3; Num 4]) VNull = Some (h', VObj 0)
    /\ ([] : list object) !! 0 = None
    /\ h' !! 0 = Some o
    /\ obj_proto o = ObjectPrototype.
Proof.
  apply (setValue_falsy_store_plain [] (VNum 0) (Num 3) [Num 4] VNull).
  reflexivity.
Defined.

(** ** Corner cases of [setValue] and [setValues] *)

(** With an empty path, or the null or undefined path that [toArray] turns
    into it, [setValue] returns the value itself and writes nothing. *)
Theorem setValue_empty_path (h : heap) (store v : val) :
  setValue h store (Many []) v = Some (h, v)
  /\ setValue h store Null v = Some (h, v)
  /\ setValue h store Undefined v = Some (h, v).
Proof. repeat split. Qed.

(** Without patches, and with falsy patches only, [setValues] returns the
    store and writes nothing. *)
Theorem setValues_no_patch (fuel : nat) (h : heap) (store : val) :
  setValues fuel h store [] = Done (h, store)
  /\ setValues (S fuel) h store [VUndefined; VNull; VBool false; VNum 0; VStr ""]
     = Done (h, store).
Proof. repeat split. Qed.

(** ** The merge of [setValues]: auxiliary facts *)

Lemma everywhere_root P t : everywhere P t -> P t.
Proof. intros H. by apply (H []). Qed.

Lemma everywhere_kid P l kids k s :
  everywhere P (TNode l kids) -> assoc k kids = Some s -> everywhere P s.
Proof. intros H Hs q s' Hq. apply (H (k :: q)). simpl. by rewrite Hs. Qed.

Lemma shallow_kid n l kids k s :
  shallow (S n) (TNode l kids) -> assoc k kids = Some s -> shallow n s.
Proof.
  intros H Hs q s' Hq. assert (length (k :: q) < S n); [|simpl in *; lia].
  apply (H _ s'). simpl. by rewrite Hs.
Qed.

Lemma dom_kid l kids k s l' :
  assoc k kids = Some s -> dom s l' -> dom (TNode l kids) l'.
Proof. intros Hs Hd. apply dom_node. right. by exists k, s. Qed.

Lemma dom_root l kids : dom (TNode l kids) l.
Proof. apply dom_node. by left. Qed.

Lemma assoc_is_Some {V} k (kids : list (string * V)) :
  k ∈ kids.*1 -> is_Some (assoc k kids).
Proof.
  induction kids as [|[k' v] kids IH]; simpl.
  - by intros ?%elem_of_nil.
  - intros [->|Hk]%elem_of_cons.
    + rewrite decide_True by done. by eexists.
    + case_decide; [by eexists | by apply IH].
Qed.

Lemma props_of_keys kids : (props_of kids).*1 = kids.*1.
Proof. unfold props_of. rewrite <- list_fmap_compose. done. Qed.

Lemma same_kinds_refl h : same_kinds h h.
Proof. split; [done|]. intros l o Ho. by exists o. Qed.

Lemma same_kinds_trans h1 h2 h3 :
  same_kinds h1 h2 -> same_kinds h2 h3 -> same_kinds h1 h3.
Proof.
  intros [Hl1 H1] [Hl2 H2]. split; [congruence|].
  intros l o Ho. destruct (H1 l o Ho) as (o' & Ho' & Hp & Hb).
  destruct (H2 l o' Ho') as (o'' & Ho'' & Hp' & Hb').
  exists o''. split; [done|]. split; congruence.
Qed.

Lemma same_kinds_put_prop h l k v : same_kinds h (put_prop h l k v).
Proof.
  split; [apply put_prop_length|]. intros l' o Ho.
  destruct (decide (l = l')) as [<-|Hne].
  - rewrite (put_prop_lookup _ _ _ _ _ Ho). by eexists.
  - rewrite put_prop_lookup_ne by done. by exists o.
Qed.

Lemma same_kinds_isObject h h' v :
  same_kinds h h' -> isObject h' v = isObject h v.
Proof.
  intros [Hlen H]. unfold isObject. destruct v; try done. simpl.
  destruct (h !! l) as [o|] eqn:Ho.
  - destruct (H l o Ho) as (o' & -> & -> & _). done.
  - apply lookup_ge_None in Ho. rewrite <- Hlen in Ho.
    apply lookup_ge_None in Ho. by rewrite Ho.
Qed.

Lemma opaque_same_kinds h h' t :
  same_kinds h h' -> everywhere (opaque_leaf h) t -> everywhere (opaque_leaf h') t.
Proof.
  intros Hk H q s Hq. specialize (H q s Hq). destruct s as [w|]; [|done].
  simpl in *. by rewrite (same_kinds_isObject h h').
Qed.

Lemma isObject_node h l kids : laid h (TNode l kids) -> isObject h (VObj l) = true.
Proof. intros [Hl _]%laid_node. unfold isObject. simpl. by rewrite Hl. Qed.

Lemma isObservable_node h l kids :
  laid h (TNode l kids) -> Mobx.isObservable h (VObj l) = false.
Proof. intros [Hl _]%laid_node. unfold Mobx.isObservable. by rewrite Hl. Qed.

Lemma set_key_node h l kids k v :
  laid h (TNode l kids) -> simple_segment (Str k) = true ->
  set_key h (VObj l) k v = put_prop h l k v.
Proof.
  intros Hlaid Hk. unfold set_key.
  rewrite (isObservable_node _ _ _ Hlaid). by apply (set_simple h l (Str k)).
Qed.

Lemma elem_of_ordered_keys k ks : k ∈ ordered_keys ks <-> k ∈ ks.
Proof.
  unfold ordered_keys. rewrite elem_of_app, list_elem_of_fmap, list_elem_of_filter.
  split.
  - intros [([n k'] & -> & Hin)|[_ ?]]; [|done].
    rewrite merge_sort_Permutation in Hin.
    apply list_elem_of_omap in Hin as (k0 & Hk0 & Heq).
    destruct (array_index k0); [|done]. by injection Heq as _ <-.
  - intros Hk. destruct (array_index k) as [n|] eqn:Hn; [left | by right].
    exists (n, k). split; [done|]. rewrite merge_sort_Permutation.
    apply list_elem_of_omap. exists k. by rewrite Hn.
Qed.

Lemma NoDup_ordered_keys ks : NoDup ks -> NoDup (ordered_keys ks).
Proof.
  intros Hnd. unfold ordered_keys. apply NoDup_app. split; [|split].
  - rewrite merge_sort_Permutation.
    induction Hnd as [|k ks Hk Hnd IH]; simpl; [constructor|].
    destruct (array_index k) as [m|]; simpl; [|done].
    constructor; [|done].
    intros ([n k'] & Heq & Hin)%list_elem_of_fmap. simpl in Heq. subst k'.
    apply list_elem_of_omap in Hin as (k0 & Hk0 & Heq).
    destruct (array_index k0); [|done]. by injection Heq as _ <-.
  - intros k ([n k'] & -> & Hin)%list_elem_of_fmap [Hnone _]%list_elem_of_filter.
    rewrite merge_sort_Permutation in Hin.
    apply list_elem_of_omap in Hin as (k0 & Hk0 & Heq).
    destruct (array_index k0) eqn:E; [|done]. injection Heq as _ <-.
    simpl in Hnone. congruence.
  - by apply NoDup_filter.
Qed.

(** ** The merge of [setValues] on trees of plain objects *)

Lemma root_tmerge fuel t p : root (tmerge fuel t p) = root t.
Proof. destruct fuel, t, p; done. Qed.

Lemma merge_inv_step h0 l kids tp hi acc k ks h2 new :
  tree_shaped (TNode l kids) -> separate (TNode l kids) tp ->
  merge_inv h0 l kids tp hi acc (k :: ks) -> k ∉ ks ->
  h2 !! l = hi !! l -> laid h2 new ->
  (forall l', dom new l' ->
     (exists s0, assoc k kids = Some s0 /\ dom s0 l') \/ dom tp l') ->
  (forall k' s', k' <> k -> assoc k' acc = Some s' -> laid h2 s') ->
  laid h2 tp ->
  (forall l', ~ dom (TNode l kids) l' -> h2 !! l' = hi !! l') ->
  same_kinds hi h2 ->
  merge_inv h0 l kids tp (put_prop h2 l k (root new)) (assoc_set k new acc) ks.
Proof.
  intros Hts Hsep (Ha & Hb & Hc & Hd & He & Hf & Hg) Hk F1 F2 F4 F5 F6 F7 F8.
  pose proof (proj1 (tree_shaped_node _ _) Hts) as [Hts1 Hts2].
  assert (Hout : forall k' s' l', assoc k' acc = Some s' -> dom s' l' -> l' <> l).
  { intros k' s' l' Hs' Hd' ->.
    destruct (He _ _ _ Hs' Hd') as [(s0 & Hs0 & Hd0)|Hp].
    - by destruct (Hts1 _ _ Hs0).
    - apply (Hsep l); [apply dom_root | done]. }
  assert (F3 : ~ dom new l).
  { intros [(s0 & Hs0 & Hd0)|Hp]%F4.
    - by destruct (Hts1 _ _ Hs0).
    - apply (Hsep l); [apply dom_root | done]. }
  rewrite Ha in F1.
  split; [|split; [|split; [|split; [|split; [|split]]]]].
  - by rewrite (put_prop_lookup _ _ _ _ _ F1), props_of_assoc_set.
  - intros k' s'. rewrite assoc_assoc_set. case_decide as Hkk.
    + intros [= <-]. apply (laid_frame h2); [done|].
      intros l' Hd'. apply put_prop_lookup_ne. by intros <-.
    + intros Hs'. apply (laid_frame h2); [by apply (F5 k')|].
      intros l' Hd'. apply put_prop_lookup_ne.
      intros <-. by apply (Hout _ _ _ Hs' Hd').
  - apply (laid_frame h2); [done|]. intros l' Hd'.
    apply put_prop_lookup_ne. intros <-.
    apply (Hsep l); [apply dom_root | done].
  - intros k' Hk'. rewrite assoc_set_ne by (by intros ->).
    apply Hd, elem_of_cons. by right.
  - intros k' s' l'. rewrite assoc_assoc_set. case_decide as Hkk.
    + intros [= <-]. subst k'. apply F4.
    + apply He.
  - intros l' Hl'. rewrite put_prop_lookup_ne.
    + rewrite F7 by done. by apply Hf.
    + intros <-. apply Hl', dom_root.
  - apply (same_kinds_trans _ hi); [done|].
    apply (same_kinds_trans _ h2); [done|]. apply same_kinds_put_prop.
Qed.

Lemma internalSetValues_each_trie fuel' h0 l kids lp pkids :
  merges fuel' ->
  tree_shaped (TNode l kids) -> separate (TNode l kids) (TNode lp pkids) ->
  everywhere (opaque_leaf h0) (TNode l kids) ->
  everywhere (opaque_leaf h0) (TNode lp pkids) ->
  everywhere plain_keys (TNode lp pkids) ->
  shallow (S fuel') (TNode lp pkids) ->
  forall ks hi acc,
    NoDup ks -> (forall k, k ∈ ks -> k ∈ pkids.*1) ->
    merge_inv h0 l kids (TNode lp pkids) hi acc ks ->
    exists h',
      internalSetValues_each (internalSetValues fuel') (VObj l) (VObj lp) hi ks
      = Done (h', VObj l)
      /\ merge_inv h0 l kids (TNode lp pkids) h'
           (fold_left (tmerge_key (tmerge fuel') pkids) ks acc) [].
Proof.
  intros Hrec Hts Hsep Hopq Hopqp Hkeys Hshallow.
  pose proof (proj1 (tree_shaped_node _ _) Hts) as [Hts1 Hts2].
  destruct (everywhere_root _ _ Hkeys) as [_ Hsimple].
  induction ks as [|k ks IH]; intros hi acc Hnd Hin Hinv.
  - exists hi. done.
  - apply NoDup_cons in Hnd as [Hk Hnd].
    pose proof Hinv as (Ha & Hb & Hc & Hd & He & Hf & Hg).
    pose proof (proj1 (laid_node _ _ _) Hc) as [Hlp Hpk].
    destruct (assoc_is_Some k pkids) as [pv Hpv];
      [apply Hin, elem_of_cons; by left|].
    assert (Hkk : assoc k acc = assoc k kids)
      by (apply Hd, elem_of_cons; by left).
    assert (Hks : simple_segment (Str k) = true)
      by (apply Hsimple, Hin, elem_of_cons; by left).
    assert (Hprev : prop hi (VObj l) k
                    = match assoc k acc with
                      | Some s => root s
                      | None => VUndefined
                      end).
    { unfold prop, find_prop, own_prop. rewrite Ha. simpl.
      rewrite assoc_props_of. by destruct (assoc k acc). }
    assert (Hval : prop hi (VObj lp) k = root pv).
    { unfold prop, find_prop, own_prop. rewrite Hlp. simpl.
      by rewrite assoc_props_of, Hpv. }
    assert (Hset : forall h2 new,
      h2 !! l = hi !! l -> laid h2 new ->
      (forall l', dom new l' ->
         (exists s0, assoc k kids = Some s0 /\ dom s0 l')
         \/ dom (TNode lp pkids) l') ->
      (forall k' s', k' <> k -> assoc k' acc = Some s' -> laid h2 s') ->
      laid h2 (TNode lp pkids) ->
      (forall l', ~ dom (TNode l kids) l' -> h2 !! l' = hi !! l') ->
      same_kinds hi h2 ->
      tmerge_key (tmerge fuel') pkids acc k = assoc_set k new acc ->
      exists h',
        internalSetValues_each (internalSetValues fuel') (VObj l) (VObj lp)
          (set_key h2 (VObj l) k (root new)) ks = Done (h', VObj l)
        /\ merge_inv h0 l kids (TNode lp pkids) h'
             (fold_left (tmerge_key (tmerge fuel') pkids) (k :: ks) acc) []).
    { intros h2 new F1 F2 F4 F5 F6 F7 F8 Hacc.
      assert (Hkey : set_key h2 (VObj l) k (root new)
                     = put_prop h2 l k (root new)).
      { unfold set_key, Mobx.isObservable. rewrite F1, Ha. simpl.
        by apply (set_simple h2 l (Str k)). }
      rewrite Hkey. simpl. rewrite Hacc.
      apply IH; [done | by intros k' Hk'; apply Hin, elem_of_cons; right |].
      by apply (merge_inv_step h0 l kids (TNode lp pkids) hi). }
    assert (Hpv_opq : everywhere (opaque_leaf hi) pv).
    { apply (opaque_same_kinds h0); [done|]. by apply (everywhere_kid _ lp pkids k). }
    assert (Hpv_obj : isObject hi (root pv)
                      = match pv with TNode _ _ => true | TLeaf _ => false end).
    { destruct pv as [w|lv kv].
      - by apply (everywhere_root _ _ Hpv_opq).
      - by apply (isObject_node _ _ kv), (Hpk k). }
    simpl. unfold get_prop. simpl. rewrite Hprev, Hval, Hpv_obj.
    destruct (assoc k acc) as [[w|ls kids_s]|] eqn:Hs; cbn [root].
    + (* the store holds a leaf *)
      assert (isObject hi w = false) as ->.
      { rewrite (same_kinds_isObject h0 hi) by done.
        symmetry in Hkk.
        by apply (everywhere_root _ _ (everywhere_kid _ _ _ _ _ Hopq Hkk)). }
      simpl. apply (Hset hi pv); try done.
      * by apply (Hpk k).
      * intros l' Hd'. right. by apply (dom_kid _ _ k pv).
      * intros k' s' _ Hs'. by apply (Hb k').
      * apply same_kinds_refl.
      * unfold tmerge_key. by rewrite Hpv, Hs.
    + (* the store holds a plain object *)
      rewrite (isObject_node hi ls kids_s) by (by apply (Hb k)).
      destruct pv as [wv|lv kv].
      * simpl. apply (Hset hi (TLeaf wv)); try done.
        -- apply laid_leaf.
        -- intros l' Hd'. by apply dom_leaf in Hd'.
        -- intros k' s' _ Hs'. by apply (Hb k').
        -- apply same_kinds_refl.
        -- unfold tmerge_key. by rewrite Hpv, Hs.
      * simpl. symmetry in Hkk.
        assert (Hsep' : separate (TNode ls kids_s) (TNode lv kv)).
        { intros l' H1 H2. apply (Hsep l');
            [by apply (dom_kid _ _ k (TNode ls kids_s))
            | by apply (dom_kid _ _ k (TNode lv kv))]. }
        destruct (Hrec hi ls kids_s lv kv) as (h2 & Hm & G1 & G2 & G3 & G4).
        { by apply (shallow_kid _ lp pkids k). }
        { by apply (Hb k). }
        { by apply (Hpk k). }
        { by apply (Hts1 k). }
        { done. }
        { apply (opaque_same_kinds h0); [done|].
          by apply (everywhere_kid _ l kids k). }
        { done. }
        { by apply (everywhere_kid _ lp pkids k). }
        rewrite Hm.
        change (VObj ls)
          with (root (TNode ls kids_s)).
        rewrite <- (root_tmerge fuel' (TNode ls kids_s) (TNode lv kv)).
        assert (Hnot : forall l', dom (TNode lp pkids) l' \/
                         (exists k' s0, k' <> k /\ assoc k' kids = Some s0
                                        /\ dom s0 l') \/ l' = l ->
                       ~ dom (TNode ls kids_s) l').
        { intros l' [Hp|[(k' & s0 & Hne & Hs0 & Hd0)| ->]] Hd'.
          - apply (Hsep l'); [by apply (dom_kid _ _ k (TNode ls kids_s)) | done].
          - by apply (Hts2 k' k s0 (TNode ls kids_s) l').
          - by destruct (Hts1 _ _ Hkk). }
        apply (Hset h2 (tmerge fuel' (TNode ls kids_s) (TNode lv kv))); try done.
        -- apply G2, Hnot. by right; right.
        -- intros l' [Hd'|Hd']%G4.
           ++ left. by exists (TNode ls kids_s).
           ++ right. by apply (dom_kid _ _ k (TNode lv kv)).
        -- intros k' s' Hne Hs'. apply (laid_frame hi); [by apply (Hb k')|].
           intros l' Hd'. apply G2, Hnot.
           destruct (He _ _ _ Hs' Hd') as [(s0 & Hs0 & Hd0)|Hp]; [|by left].
           right; left. by exists k', s0.
        -- apply (laid_frame hi); [done|]. intros l' Hd'.
           apply G2, Hnot. by left.
        -- intros l' Hl'. apply G2. intros Hd'. apply Hl'.
           by apply (dom_kid _ _ k (TNode ls kids_s)).
        -- unfold tmerge_key. by rewrite Hpv, Hs.
    + (* the store has no such key *)
      simpl. apply (Hset hi pv); try done.
      * by apply (Hpk k).
      * intros l' Hd'. right. by apply (dom_kid _ _ k pv).
      * intros k' s' _ Hs'. by apply (Hb k').
      * apply same_kinds_refl.
      * unfold tmerge_key. by rewrite Hpv, Hs.
Qed.

Lemma internalSetValues_truthy fuel h store values :
  truthy values = true ->
  internalSetValues (S fuel) h store values
  = internalSetValues_each (internalSetValues fuel) store values h
      ((if Mobx.isObservable h values then Mobx.keys else own_keys) h values).
Proof. intros H. simpl. by rewrite H. Qed.

Lemma merges_all fuel : merges fuel.
Proof.
  induction fuel as [|fuel IH];
    intros h l kids lp pkids Hshallow Hlaid Hlaidp Hts Hsep Hopq Hopqp Hkeys.
  - specialize (Hshallow [] _ eq_refl). simpl in Hshallow. lia.
  - pose proof (proj1 (laid_node _ _ _) Hlaid) as [Hl Hk].
    pose proof (proj1 (laid_node _ _ _) Hlaidp) as [Hlp Hpk].
    destruct (everywhere_root _ _ Hkeys) as [Hnd _].
    destruct (internalSetValues_each_trie fuel h l kids lp pkids IH Hts Hsep
                Hopq Hopqp Hkeys Hshallow (ordered_keys pkids.*1) h kids)
      as (h' & Heach & Ha & Hb & Hc & _ & He & Hf & Hg).
    { by apply NoDup_ordered_keys. }
    { intros k. by rewrite elem_of_ordered_keys. }
    { split; [done|]. split; [done|]. split; [done|]. split; [done|].
      split; [|split; [done | apply same_kinds_refl]].
      intros k s l' Hs Hd. left. by exists s. }
    exists h'. split; [|split; [|split; [done|split; [done|]]]].
    + rewrite internalSetValues_truthy by done.
      rewrite (isObservable_node _ _ _ Hlaidp). simpl.
      rewrite Hlp. simpl. by rewrite props_of_keys.
    + simpl. by apply laid_node.
    + simpl. intros l' [->|(k & s & Hs & Hd)]%dom_node.
      * left. apply dom_root.
      * destruct (He _ _ _ Hs Hd) as [(s0 & Hs0 & Hd0)|Hp]; [|by right].
        left. by apply (dom_kid _ _ k s0).
Qed.

Lemma assoc_tmerge_key rec pkids acc k k' :
  assoc k' (tmerge_key rec pkids acc k)
  = if decide (k' = k) then merged_entry rec pkids (assoc k acc) k
    else assoc k' acc.
Proof.
  unfold tmerge_key, merged_entry. destruct (assoc k pkids) as [pv|].
  - rewrite assoc_assoc_set. by case_decide.
  - case_decide; by subst.
Qed.

Lemma assoc_fold_tmerge_key rec pkids ks : forall acc k,
  NoDup ks ->
  assoc k (fold_left (tmerge_key rec pkids) ks acc)
  = if decide (k ∈ ks) then merged_entry rec pkids (assoc k acc) k
    else assoc k acc.
Proof.
  induction ks as [|k0 ks IH]; intros acc k Hnd.
  - destruct (decide (k ∈ [])) as [Hin|_]; [by apply elem_of_nil in Hin | done].
  - apply NoDup_cons in Hnd as [Hk0 Hnd].
    change (fold_left (tmerge_key rec pkids) (k0 :: ks) acc)
      with (fold_left (tmerge_key rec pkids) ks (tmerge_key rec pkids acc k0)).
    rewrite IH by done.
    rewrite (assoc_tmerge_key rec pkids acc k0 k).
    destruct (decide (k = k0)) as [->|Hne].
    + rewrite (decide_False (P := k0 ∈ ks)) by done.
      rewrite (decide_True (P := k0 ∈ k0 :: ks)); [done|].
      apply elem_of_cons; by left.
    + destruct (decide (k ∈ ks)) as [Hin|Hnin].
      * rewrite (decide_True (P := k ∈ k0 :: ks)); [done|].
        apply elem_of_cons; by right.
      * rewrite (decide_False (P := k ∈ k0 :: ks)); [done|].
        rewrite elem_of_cons. tauto.
Qed.

(** X7: For a store and a patch that are trees of plain objects with no object
    in common, the keys of the patch being keys [lodash.set] writes as they
    are: [setValues] returns the store, having written into objects of the
    store only; for a key of the patch the store then holds the object it
    held, merged in the same way, when that and the incoming value both are
    plain objects, and the incoming value itself otherwise, be it an array;
    the other keys of the store are as they were. *)
Theorem setValues_policy (fuel : nat) (h : heap) (l lp : loc)
    (kids pkids : list (string * trie)) :
  shallow fuel (TNode lp pkids) ->
  laid h (TNode l kids) -> laid h (TNode lp pkids) ->
  tree_shaped (TNode l kids) ->
  separate (TNode l kids) (TNode lp pkids) ->
  everywhere (opaque_leaf h) (TNode l kids) ->
  everywhere (opaque_leaf h) (TNode lp pkids) ->
  everywhere plain_keys (TNode lp pkids) ->
  exists h',
    setValues fuel h (VObj l) [VObj lp] = Done (h', VObj l)
    /\ laid h' (tmerge fuel (TNode l kids) (TNode lp pkids))
    /\ (forall l', ~ dom (TNode l kids) l' -> h' !! l' = h !! l')
    /\ (forall k, k ∈ own_keys h (VObj lp) ->
          prop h' (VObj l) k
          = if isObject h (prop h (VObj l) k) && isObject h (prop h (VObj lp) k)
            then prop h (VObj l) k
            else prop h (VObj lp) k)
    /\ (forall k, k ∉ own_keys h (VObj lp) ->
          prop h' (VObj l) k = prop h (VObj l) k).
Proof.
  intros Hshallow Hlaid Hlaidp Hts Hsep Hopq Hopqp Hkeys.
  destruct (merges_all fuel h l kids lp pkids Hshallow Hlaid Hlaidp Hts Hsep
              Hopq Hopqp Hkeys) as (h' & Hm & G1 & G2 & _ & _).
  exists h'. split; [by simpl; rewrite Hm|]. split; [done|]. split; [done|].
  destruct fuel as [|fuel]; [by specialize (Hshallow [] _ eq_refl)|].
  simpl in G1. apply laid_node in G1 as [Hl' _].
  pose proof (proj1 (laid_node _ _ _) Hlaid) as [Hl Hk].
  pose proof (proj1 (laid_node _ _ _) Hlaidp) as [Hlp Hpk].
  destruct (everywhere_root _ _ Hkeys) as [Hnd _].
  assert (Hread : forall k,
    prop h' (VObj l) k
    = default VUndefined
        (root <$> (if decide (k ∈ ordered_keys pkids.*1)
                   then merged_entry (tmerge fuel) pkids (assoc k kids) k
                   else assoc k kids))).
  { intros k. unfold prop, find_prop, own_prop. rewrite Hl'. simpl.
    rewrite assoc_props_of.
    by rewrite assoc_fold_tmerge_key by (by apply NoDup_ordered_keys). }
  assert (Hstore : forall k, prop h (VObj l) k
                             = default VUndefined (root <$> assoc k kids)).
  { intros k. unfold prop, find_prop, own_prop. rewrite Hl. simpl.
    by rewrite assoc_props_of. }
  assert (Hpatch : forall k, prop h (VObj lp) k
                             = default VUndefined (root <$> assoc k pkids)).
  { intros k. unfold prop, find_prop, own_prop. rewrite Hlp. simpl.
    by rewrite assoc_props_of. }
  assert (Hown : own_keys h (VObj lp) = ordered_keys pkids.*1).
  { simpl. rewrite Hlp. simpl. by rewrite props_of_keys. }
  rewrite Hown. split.
  - intros k Hin. rewrite Hread, Hstore, Hpatch, decide_True by done.
    apply (proj1 (elem_of_ordered_keys _ _)) in Hin.
    destruct (assoc_is_Some k pkids Hin) as [pv Hpv].
    unfold merged_entry. rewrite Hpv. simpl.
    assert (Hpv_obj : isObject h (root pv)
                      = match pv with TNode _ _ => true | TLeaf _ => false end).
    { destruct pv as [w|lv kv].
      - by apply (everywhere_root _ _ (everywhere_kid _ _ _ _ _ Hopqp Hpv)).
      - by apply (isObject_node _ _ kv), (Hpk k). }
    rewrite Hpv_obj.
    destruct (assoc k kids) as [[w|ls kids_s]|] eqn:Hs; simpl.
    + by rewrite (everywhere_root _ _ (everywhere_kid _ _ _ _ _ Hopq Hs)).
    + rewrite (isObject_node h ls kids_s) by (by apply (Hk k)).
      destruct pv; [done|]. simpl. by rewrite root_tmerge.
    + done.
  - intros k Hin. by rewrite Hread, Hstore, decide_False.
Qed.

(** *** The documented merge, as an instance *)

Lemma everywhere_intro_leaf (P : trie -> Prop) w :
  P (TLeaf w) -> everywhere P (TLeaf w).
Proof. intros H [|k q] s; [by intros [= <-] | done]. Qed.

Lemma everywhere_intro_node (P : trie -> Prop) l kids :
  P (TNode l kids) ->
  (forall k s, assoc k kids = Some s -> everywhere P s) ->
  everywhere P (TNode l kids).
Proof.
  intros H Hk [|k q] s; simpl; [by intros [= <-]|].
  destruct (assoc k kids) as [s0|] eqn:Hs; [|done]. by apply (Hk k s0 Hs).
Qed.

Lemma shallow_intro_leaf n w : shallow (S n) (TLeaf w).
Proof. intros [|k q] s; simpl; [lia | done]. Qed.

Lemma shallow_intro_node n l kids :
  (forall k s, assoc k kids = Some s -> shallow n s) ->
  shallow (S n) (TNode l kids).
Proof.
  intros Hk [|k q] s; simpl; [lia|].
  destruct (assoc k kids) as [s0|] eqn:Hs; [|done].
  intros Hq. specialize (Hk k s0 Hs q s Hq). lia.
Qed.

Ltac kid H := simpl in H; repeat (case_decide; simplify_eq); simplify_eq.

Ltac dom_inv H :=
  first
    [ by apply dom_leaf in H
    | let k := fresh "k" in
      let s := fresh "s" in
      let Hs := fresh "Hs" in
      let Heq := fresh "Heq" in
      apply dom_node in H as [Heq|(k & s & Hs & H)];
      [simplify_eq | kid Hs; dom_inv H] ].

Ltac solve_shallow :=
  first
    [ apply shallow_intro_leaf
    | let k := fresh "k" in
      let s := fresh "s" in
      let Hs := fresh "Hs" in
      apply shallow_intro_node; intros k s Hs; kid Hs; solve_shallow ].

Ltac solve_laid :=
  first
    [ apply laid_leaf
    | let k := fresh "k" in
      let s := fresh "s" in
      let Hs := fresh "Hs" in
      apply laid_node; split;
      [reflexivity | intros k s Hs; kid Hs; solve_laid] ].

Ltac solve_tree_shaped :=
  first
    [ apply tree_shaped_leaf
    | let k := fresh "k" in
      let k' := fresh "k" in
      let s := fresh "s" in
      let s' := fresh "s" in
      let l' := fresh "l" in
      let Hne := fresh "Hne" in
      let Hs := fresh "Hs" in
      let Hs' := fresh "Hs" in
      let Hd := fresh "Hd" in
      let Hd' := fresh "Hd" in
      apply tree_shaped_node; split;
      [ intros k s Hs; kid Hs;
        (split; [solve_tree_shaped | intros Hd; dom_inv Hd])
      | intros k k' s s' l' Hne Hs Hs' Hd Hd'; kid Hs; kid Hs'; try done;
        dom_inv Hd; dom_inv Hd' ] ].

Ltac solve_everywhere :=
  first
    [ apply everywhere_intro_leaf; first [reflexivity | exact I]
    | let k := fresh "k" in
      let s := fresh "s" in
      let Hs := fresh "Hs" in
      apply everywhere_intro_node;
      [ first [ exact I
              | split; [apply (bool_decide_unpack _); by vm_compute
                       | let k' := fresh "k" in
                         let Hk := fresh "Hk" in
                         intros k' Hk%list_elem_of_In; simpl in Hk;
                         intuition (subst; reflexivity)] ]
      | intros k s Hs; kid Hs; solve_everywhere ] ].

Lemma setValues_policy_witness :
  exists h',
    setValues 3 merge_example_heap (VObj 0) [VObj 2] = Done (h', VObj 0)
    /\ laid h' (tmerge 3 (TNode 0 merge_example_store)
                         (TNode 2 merge_example_patch))
    /\ (forall l', ~ dom (TNode 0 merge_example_store) l' ->
          h' !! l' = merge_example_heap !! l')
    /\ (forall k, k ∈ own_keys merge_example_heap (VObj 2) ->
          prop h' (VObj 0) k
          = if isObject merge_example_heap (prop merge_example_heap (VObj 0) k)
               && isObject merge_example_heap (prop merge_example_heap (VObj 2) k)
            then prop merge_example_heap (VObj 0) k
            else prop merge_example_heap (VObj 2) k)
    /\ (forall k, k ∉ own_keys merge_example_heap (VObj 2) ->
          prop h' (VObj 0) k = prop merge_example_heap (VObj 0) k).
Proof.
  apply (setValues_policy 3 merge_example_heap 0 2
           merge_example_store merge_example_patch);
    unfold merge_example_heap, merge_example_store, merge_example_patch.
  - solve_shallow.
  - solve_laid.
  - solve_laid.
  - solve_tree_shaped.
  - intros l' Hd Hd'. dom_inv Hd; dom_inv Hd'.
  - solve_everywhere.
  - solve_everywhere.
  - solve_everywhere.
Defined.

(** ** [move] as a rearrangement *)

Lemma move_forms {T} (array : list T) (from to : nat) :
  from < length array -> to < length array -> from <> to ->
  exists item,
    array !! from = Some item
    /\ move array (Z.of_nat from) (Z.of_nat to)
       = NewArray
           (if decide (to < from)
            then take to array ++ [item] ++ take (from - to) (drop to array)
                 ++ drop (S from) array
            else take from array ++ take (to - from) (drop (S from) array)
                 ++ [item] ++ drop (S to) array).
Proof.
  intros Hf Ht Hne. unfold move.
  destruct (Z.ltb_spec (Z.of_nat from) 0); [lia|].
  destruct (Z.geb_spec (Z.of_nat from) (Z.of_nat (length array))); [lia|].
  destruct (Z.ltb_spec (Z.of_nat to) 0); [lia|].
  destruct (Z.geb_spec (Z.of_nat to) (Z.of_nat (length array))); [lia|].
  simpl. rewrite Nat2Z.id.
  destruct (array !! from) as [item|] eqn:Hitem;
    [|apply lookup_ge_None in Hitem; lia].
  exists item. split; [done|].
  replace (Z.of_nat from + 1)%Z with (Z.of_nat (S from)) by lia.
  replace (Z.of_nat to + 1)%Z with (Z.of_nat (S to)) by lia.
  destruct (Z.gtb_spec (Z.of_nat from - Z.of_nat to) 0).
  - change 0%Z with (Z.of_nat 0).
    rewrite !slice_in_range by lia.
    rewrite Nat.sub_0_r, drop_0.
    replace (length array - S from) with (length (drop (S from) array))
      by (rewrite length_drop; lia).
    rewrite firstn_all. by rewrite decide_True by lia.
  - destruct (Z.ltb_spec (Z.of_nat from - Z.of_nat to) 0); [|lia].
    change 0%Z with (Z.of_nat 0).
    rewrite !slice_in_range by lia.
    rewrite Nat.sub_0_r, drop_0.
    replace (length array - S to) with (length (drop (S to) array))
      by (rewrite length_drop; lia).
    rewrite firstn_all.
    replace (S to - S from) with (to - from) by lia.
    by rewrite decide_False by lia.
Qed.

Lemma moved_from_back (from to i : nat) :
  moved_from from to (moved_from to from i) = i.
Proof. unfold moved_from. repeat case_decide; lia. Qed.

(** X4: [move] rearranges: with both indices in range and different, the
    array it builds is a permutation of its argument, and moving the element
    back from [to] to [from] gives an array equal to the argument. *)
Theorem move_back {T} (array : list T) (from to : nat) :
  from < length array -> to < length array -> from <> to ->
  exists items,
    move array (Z.of_nat from) (Z.of_nat to) = NewArray items
    /\ items ≡ₚ array
    /\ move items (Z.of_nat to) (Z.of_nat from) = NewArray array.
Proof.
  intros Hf Ht Hne.
  destruct (move_forms array from to Hf Ht Hne) as (item & Hitem & Hmove).
  eexists. split; [exact Hmove|].
  assert (Hlook : forall i,
             (if decide (to < from)
              then take to array ++ [item] ++ take (from - to) (drop to array)
                   ++ drop (S from) array
              else take from array ++ take (to - from) (drop (S from) array)
                   ++ [item] ++ drop (S to) array) !! i
             = array !! moved_from from to i).
  { intros i. case_decide.
    - apply move_left_lookup; [lia | done].
    - apply move_right_lookup; [lia | done]. }
  assert (Hlen : length (if decide (to < from)
              then take to array ++ [item] ++ take (from - to) (drop to array)
                   ++ drop (S from) array
              else take from array ++ take (to - from) (drop (S from) array)
                   ++ [item] ++ drop (S to) array) = length array).
  { case_decide;
      repeat (rewrite ?length_app, ?length_take, ?length_drop; simpl); lia. }
  split.
  - assert (Hdrop : forall n m,
               drop n array = take m (drop n array) ++ drop (n + m) array).
    { intros n m. by rewrite <- drop_drop, take_drop. }
    case_decide.
    + trans (take to array ++ take (from - to) (drop to array)
             ++ item :: drop (S from) array).
      * apply Permutation_app_head. simpl. apply Permutation_middle.
      * rewrite <- (drop_S _ _ _ Hitem).
        replace from with (to + (from - to)) at 2 by lia.
        rewrite <- Hdrop. by rewrite take_drop.
    + trans (take from array ++ item :: take (to - from) (drop (S from) array)
             ++ drop (S to) array).
      * apply Permutation_app_head. symmetry. simpl. apply Permutation_middle.
      * replace (S to) with (S from + (to - from)) by lia.
        rewrite <- Hdrop.
        rewrite <- (drop_S _ _ _ Hitem). by rewrite take_drop.
  - set (items := if decide (to < from) then _ else _) in *.
    destruct (move_forms items to from) as (item' & Hitem' & ->); [lia..|].
    f_equal. apply list_eq. intros i.
    transitivity (items !! moved_from to from i).
    + case_decide.
      * apply move_left_lookup; [lia | done].
      * apply move_right_lookup; [lia | done].
    + rewrite Hlook. by rewrite moved_from_back.
Qed.

Lemma move_back_witness :
  exists items,
    move ["a"; "b"; "c"; "d"] (Z.of_nat 0) (Z.of_nat 2) = NewArray items
    /\ items ≡ₚ ["a"; "b"; "c"; "d"]
    /\ move items (Z.of_nat 2) (Z.of_nat 0) = NewArray ["a"; "b"; "c"; "d"].
Proof. apply (move_back ["a"; "b"; "c"; "d"] 0 2); simpl; lia. Defined.

(** ** [matchNamePath] and [containsNamePath] *)

Lemma matchNamePath_eq (a b : list segment) :
  matchNamePath (Some a) (Some b) = true <-> a = b.
Proof.
  unfold matchNamePath.
  destruct (Nat.eqb_spec (length a) (length b)) as [Hlen|Hlen]; simpl.
  - rewrite every_index_spec. split.
    + intros H. apply list_eq. intros i.
      destruct (a !! i) as [x|] eqn:Ha.
      * symmetry. by apply H.
      * apply lookup_ge_None in Ha. symmetry. apply lookup_ge_None. lia.
    + intros -> i x Hx. done.
  - split; [done|]. intros ->. done.
Qed.

(** X5: [containsNamePath] answers whether the path is one of the list: over
    an array of paths it is [true] exactly when some listed path has the
    segments of [namePath], in the same order; a path that is null or
    undefined is in no list; and a list that is null or undefined is handed
    back as it is, not turned into [false]. *)
Theorem containsNamePath_spec :
  (forall paths namePath,
      containsNamePath (Is paths) (Some namePath) = Is true
      <-> namePath ∈ paths)
  /\ (forall paths namePath,
        containsNamePath (Is paths) (Some namePath) = Is false
        <-> namePath ∉ paths)
  /\ (forall paths, containsNamePath (Is paths) None = Is false)
  /\ (forall namePath,
        containsNamePath IsNull namePath = IsNull
        /\ containsNamePath IsUndefined namePath = IsUndefined).
Proof.
  assert (Hex : forall paths namePath,
             containsNamePath (Is paths) (Some namePath)
             = Is (bool_decide (namePath ∈ paths))).
  { intros paths namePath. unfold containsNamePath. f_equal.
    destruct (existsb _ paths) eqn:E; symmetry.
    - apply bool_decide_eq_true. apply existsb_exists in E.
      destruct E as (path & Hin & Hm). apply matchNamePath_eq in Hm. subst.
      by apply list_elem_of_In.
    - apply bool_decide_eq_false. intros Hin.
      assert (existsb (fun path => matchNamePath (Some path) (Some namePath))
                paths = true); [|congruence].
      apply existsb_exists. exists namePath.
      split; [by apply list_elem_of_In | by apply matchNamePath_eq]. }
  repeat split.
  - rewrite Hex. intros H. injection H as H. by apply bool_decide_eq_true in H.
  - rewrite Hex. intros H. by rewrite bool_decide_eq_true_2.
  - rewrite Hex. intros H. injection H as H. by apply bool_decide_eq_false in H.
  - rewrite Hex. intros H. by rewrite bool_decide_eq_false_2.
  - intros paths. unfold containsNamePath. f_equal.
    induction paths as [|p paths IH]; [done|].
    cbn [existsb]. rewrite IH. done.
Qed.

(** ** [defaultGetValueFromEvent] *)

(** X6: [defaultGetValueFromEvent] never throws, whatever it is called with.
    It hands back the property [valuePropName] of the first argument's
    [target], also when that property holds a falsy value, if the first
    argument is truthy and its [target] is an object that has the property;
    in every other case (no argument, a primitive, an object without a
    [target], a [target] that is a function or lacks the property) it hands
    back the first argument itself, [undefined] when there is none. *)
Theorem defaultGetValueFromEvent_spec (h : heap) (valuePropName : string)
    (args : list val) :
  let event := default VUndefined (args !! 0) in
  exists result,
    defaultGetValueFromEvent h valuePropName args = Some result
    /\ ((exists t,
            truthy event = true
            /\ prop h event "target" = VObj t
            /\ has_prop h (VObj t) valuePropName = true
            /\ result = prop h (VObj t) valuePropName)
        \/ (result = event
            /\ forall t,
                 truthy event = true ->
                 prop h event "target" = VObj t ->
                 has_prop h (VObj t) valuePropName = false)).
Proof.
  intros event. unfold defaultGetValueFromEvent. fold event.
  destruct (truthy event) eqn:Hev.
  - assert (get_prop h event (Str "target") = Some (prop h event "target"))
      as ->.
    { unfold get_prop. by rewrite (truthy_not_nullish _ Hev). }
    destruct (prop h event "target") as [| |b|n|s|l|t] eqn:Ht; simpl;
      try solve [eexists; split; [done|]; right; split; [done|]; intros;
                 congruence];
      try solve [case_match; eexists; (split; [done|]); right;
                 (split; [done|]); intros; congruence].
    destruct (has_prop h (VObj t) valuePropName) eqn:Hin.
    + eexists. split; [done|]. left. exists t. done.
    + eexists. split; [done|]. right. split; [done|].
      intros t' _ Ht'. by simplify_eq.
  - eexists. split; [done|]. right. split; [done|]. intros. congruence.
Qed.

(** ** [isSimilar] as a relation *)

Lemma prop_absent h l k : k ∉ own_keys h (VObj l) -> prop h (VObj l) k = VUndefined.
Proof.
  unfold prop, own_keys, find_prop, own_prop. intros Hk.
  destruct (h !! l) as [o|]; [|done].
  destruct (assoc k (obj_props o)) as [v|] eqn:E; [|done].
  exfalso. apply Hk, elem_of_ordered_keys.
  apply assoc_elem_of in E. apply list_elem_of_fmap. by exists (k, v).
Qed.

Lemma isSimilar_true h a b :
  isSimilar h a b = Some true
  <-> a = b
      \/ exists la lb,
           a = VObj la /\ b = VObj lb
           /\ forall key, similar_values (prop h a key) (prop h b key) = true.
Proof.
  destruct (strict_eq a b) eqn:Hab.
  { unfold isSimilar. rewrite Hab. split; [|done]. intros _. left.
    by apply bool_decide_eq_true in Hab. }
  assert (a <> b) as Hne by (by apply bool_decide_eq_false in Hab).
  destruct (truthy a) eqn:Ha, (truthy b) eqn:Hb;
    try (unfold isSimilar; rewrite Hab, Ha, Hb; simpl; split; [done|];
         intros [?|(la & lb & -> & -> & _)]; done).
  destruct (decide (typeof a = TObject)) as [Hoa|Hoa],
           (decide (typeof b = TObject)) as [Hob|Hob];
    try (unfold isSimilar; rewrite Hab, Ha, Hb;
         cbn [negb andb orb];
         rewrite ?(bool_decide_eq_false_2 _ Hoa), ?(bool_decide_eq_false_2 _ Hob),
           ?(bool_decide_eq_true_2 _ Hoa), ?(bool_decide_eq_true_2 _ Hob);
         simpl; split; [done|];
         intros [?|(la & lb & -> & -> & _)]; done).
  rewrite isSimilar_objects by done.
  destruct a as [| | | | | |la]; try done. destruct b as [| | | | | |lb]; try done.
  split.
  - intros H. right. exists la, lb. split; [done|]. split; [done|].
    injection H as H. rewrite forallb_forall in H. intros key.
    destruct (decide (key ∈ own_keys h (VObj la) ++ own_keys h (VObj lb)))
      as [Hin|Hout].
    + apply H, list_elem_of_In, elem_of_set_of. split; [done|].
      apply not_elem_of_nil.
    + rewrite elem_of_app in Hout.
      rewrite !prop_absent by tauto. done.
  - intros [?|(la' & lb' & _ & _ & H)]; [done|]. f_equal.
    apply forallb_forall. intros key _. apply H.
Qed.

Lemma similar_values_trans a b c :
  similar_values a b = true -> similar_values b c = true ->
  similar_values a c = true.
Proof.
  rewrite !similar_values_spec. intros [[? ?]| ->] [[? ?]| <-]; tauto.
Qed.

(** X13: Among plain objects [isSimilar] is transitive: if it holds of [a]
    and [b] and of [b] and [c], it holds of [a] and [c], whatever keys the
    three objects have.  (The three have one prototype, so a key that two of
    them lack reads the same in both.) *)
Theorem isSimilar_trans (h : heap) (a b c : val) :
  isObject h a = true -> isObject h b = true -> isObject h c = true ->
  isSimilar h a b = Some true -> isSimilar h b c = Some true ->
  isSimilar h a c = Some true.
Proof.
  intros _ _ _. rewrite !isSimilar_true.
  intros [->|(la & lb & -> & -> & Hab)]; [done|].
  intros [ <- |(lb' & lc & Hb & -> & Hbc)].
  - right. exists la, lb. done.
  - right. exists la, lc. split; [done|]. split; [done|].
    intros key. by eapply similar_values_trans.
Qed.

Lemma isSimilar_trans_witness :
  isSimilar [plain [("x", VNum 1); ("f", VFun 3)]; plain [("f", VFun 4); ("x", VNum 1)];
             plain [("x", VNum 1); ("f", VFun 5); ("y", VUndefined)];
             Object OtherPrototype false []; Object OtherPrototype false [];
             Object OtherPrototype false []]
    (VObj 0) (VObj 2) = Some true.
Proof.
  apply (isSimilar_trans _ (VObj 0) (VObj 1) (VObj 2)); reflexivity.
Defined.

(** ** What [setValue] writes and what it leaves alone *)

(** X14: [getValue] composes: reading a path made of two parts is reading the
    second part from what the first part leads to. *)
Theorem getValue_app (h : heap) (store : val) (walked rest : list segment) :
  exists node,
    getValue h store (Many walked) = Some node
    /\ getValue h store (Many (walked ++ rest)) = getValue h node (Many rest).
Proof.
  unfold getValue. simpl.
  destruct (getValue_loop_total h walked store) as [node Hnode].
  exists node. split; [done|]. by rewrite getValue_loop_app, Hnode.
Qed.

Lemma setValue_path_in_place path : forall h store v,
  simple_path path = true ->
  exists h' r,
    setValue_path h store path v = Some (h', r)
    /\ length h <= length h'
    /\ (forall l, l < length h -> l ∉ walk h store path -> h' !! l = h !! l)
    /\ (path <> [] ->
        r = match store with VObj l => VObj l | _ => VObj (length h) end).
Proof.
  induction path as [|s path IH]; intros h store v Hsimple.
  - exists h, v. simpl. done.
  - simpl in Hsimple. apply andb_true_iff in Hsimple as [Hs Hsimple].
    destruct (not_object store) eqn:Hstore.
    + destruct (setValue_path_fresh (s :: path) h store v Hstore)
        as (h' & Hset & _ & _ & _ & Hlen & Hfr).
      exists h', (VObj (length h)).
      split; [done|]. split; [done|]. split; [by intros l Hl _; apply Hfr|].
      intros _. by destruct store.
    + destruct store as [| | | | | |l]; try done.
      destruct (IH h (prop h (VObj l) (toKey s)) v Hsimple)
        as (h1 & r1 & Hset & Hlen & Hfr & _).
      exists (put_prop h1 l (toKey s) r1), (VObj l).
      split; [|split; [|split]].
      * simpl. unfold get_prop. simpl. rewrite Hset.
        by rewrite set_simple.
      * rewrite put_prop_length. lia.
      * intros l' Hl' Hnot. simpl in Hnot. rewrite not_elem_of_cons in Hnot.
        rewrite put_prop_lookup_ne by (by intros <-; destruct Hnot).
        apply Hfr; [done | by destruct Hnot].
      * done.
Qed.

(** X9: [setValue] works in place.  On a path that is not empty, whose
    segments [lodash.set] writes as single keys, whose numbers are exact and
    along which every object takes its key as a plain write (plain objects
    and arrays, no observables, not the [length] of an array), it returns
    the store itself if the store is an object, and a new object otherwise;
    the heap only grows; and the only objects it writes into are those on
    its way along the path, every other object being left as it was. *)
Theorem setValue_in_place (h : heap) (store : val) (headPath : segment)
    (tailPath : list segment) (v : val) :
  simple_path (headPath :: tailPath) = true ->
  exact_path (headPath :: tailPath) = true ->
  plain_walk h store (headPath :: tailPath) = true ->
  exists h',
    setValue h store (Many (headPath :: tailPath)) v
    = Some (h', match store with VObj l => VObj l | _ => VObj (length h) end)
    /\ length h <= length h'
    /\ forall l,
         l < length h -> l ∉ walk h store (headPath :: tailPath) ->
         h' !! l = h !! l.
Proof.
  intros Hsimple _ _.
  destruct (setValue_path_in_place (headPath :: tailPath) h store v Hsimple)
    as (h' & r & Hset & Hlen & Hfr & Hr).
  exists h'. rewrite <- Hr by done. done.
Qed.

Lemma setValue_in_place_witness :
  exists h',
    setValue [plain [("a", VObj 1); ("b", VObj 2)]; plain []; plain [("c", VNum 1)]]
      (VObj 0) (Many [Str "a"; Num 0]) (VStr "x")
    = Some (h', VObj 0)
    /\ 3 <= length h'
    /\ forall l,
         l < 3 ->
         l ∉ walk [plain [("a", VObj 1); ("b", VObj 2)]; plain [];
                   plain [("c", VNum 1)]] (VObj 0) [Str "a"; Num 0] ->
         h' !! l
         = [plain [("a", VObj 1); ("b", VObj 2)]; plain []; plain [("c", VNum 1)]]
             !! l.
Proof.
  apply (setValue_in_place
           [plain [("a", VObj 1); ("b", VObj 2)]; plain []; plain [("c", VNum 1)]]
           (VObj 0) (Str "a") [Num 0] (VStr "x")); reflexivity.
Defined.

Lemma getValue_loop_agree h h' path : forall v,
  (forall l, l ∈ reads h v path -> h' !! l = h !! l) ->
  getValue_loop h' v path = getValue_loop h v path.
Proof.
  induction path as [|s path IH]; intros v Hagree; simpl; [done|].
  destruct (nullish v) eqn:Hn; [done|].
  unfold get_prop. rewrite Hn.
  assert (Hp : prop h' v (toKey s) = prop h v (toKey s)).
  { unfold prop, find_prop, own_prop.
    destruct v; try done; simpl in Hagree;
      by rewrite Hagree by (apply elem_of_cons; by left). }
  rewrite Hp. apply IH. intros l Hl. apply Hagree.
  destruct v; simpl in *; try done; apply elem_of_cons; by right.
Qed.

Lemma setValue_path_apart common : forall h store v k1 k2 tail1 tail2,
  toKey k1 <> toKey k2 ->
  simple_path (common ++ k1 :: tail1) = true ->
  length (walk h store (common ++ [k1])) = S (length common) ->
  NoDup (walk h store (common ++ k1 :: tail1)) ->
  (forall l, l ∈ walk h store (common ++ k1 :: tail1) -> l < length h) ->
  (forall node l,
      getValue_loop h store common = Some node ->
      l ∈ reads h (prop h node (toKey k2)) tail2 ->
      l < length h /\ l ∉ walk h store (common ++ k1 :: tail1)) ->
  exists h',
    setValue_path h store (common ++ k1 :: tail1) v = Some (h', store)
    /\ (forall l, l < length h -> l ∉ walk h store (common ++ k1 :: tail1) ->
                  h' !! l = h !! l)
    /\ getValue_loop h' store (common ++ k2 :: tail2)
       = getValue_loop h store (common ++ k2 :: tail2).
Proof.
  induction common as [|k common IH];
    intros h store v k1 k2 tail1 tail2 Hne Hsimple Hlen Hnd Hlt Hreads.
  - simpl in *. destruct store as [| | | | | |l]; try done.
    apply andb_true_iff in Hsimple as [Hs Hsimple].
    apply NoDup_cons in Hnd as [Hl Hnd].
    assert (Hll : l < length h) by (apply Hlt, elem_of_cons; by left).
    destruct (lookup_lt_is_Some_2 h l Hll) as [o Ho].
    destruct (setValue_path_in_place tail1 h (prop h (VObj l) (toKey k1)) v
                Hsimple) as (h1 & r1 & Hset & Hlen1 & Hfr & _).
    assert (Ho1 : h1 !! l = Some o) by (by rewrite Hfr).
    exists (put_prop h1 l (toKey k1) r1).
    split; [|split].
    + unfold get_prop. simpl. rewrite Hset. by rewrite set_simple.
    + intros l' Hl' Hnot. rewrite not_elem_of_cons in Hnot.
      rewrite put_prop_lookup_ne by (by intros <-; destruct Hnot).
      apply Hfr; [done | by destruct Hnot].
    + unfold get_prop. simpl.
      assert (Hp : prop (put_prop h1 l (toKey k1) r1) (VObj l) (toKey k2)
                   = prop h (VObj l) (toKey k2)).
      { unfold prop, find_prop, own_prop.
        rewrite (put_prop_lookup _ _ _ _ _ Ho1), Ho. simpl.
        by rewrite assoc_set_ne by done. }
      rewrite Hp. apply getValue_loop_agree. intros l' Hl'.
      destruct (Hreads (VObj l) l' eq_refl Hl') as [Hb Hnot].
      rewrite not_elem_of_cons in Hnot.
      rewrite put_prop_lookup_ne by (by intros <-; destruct Hnot).
      apply Hfr; [done | by destruct Hnot].
  - simpl in *. destruct store as [| | | | | |l]; try done.
    apply andb_true_iff in Hsimple as [Hs Hsimple].
    apply NoDup_cons in Hnd as [Hl Hnd].
    assert (Hll : l < length h) by (apply Hlt, elem_of_cons; by left).
    destruct (lookup_lt_is_Some_2 h l Hll) as [o Ho].
    simpl in Hlen. injection Hlen as Hlen.
    destruct (IH h (prop h (VObj l) (toKey k)) v k1 k2 tail1 tail2 Hne Hsimple
                Hlen Hnd) as (h1 & Hset & Hfr & Hread).
    { intros l' Hl'. apply Hlt, elem_of_cons. by right. }
    { intros node l' Hnode Hl'. unfold get_prop in Hreads. simpl in Hreads.
      destruct (Hreads node l' Hnode Hl') as [Hb Hnot].
      rewrite not_elem_of_cons in Hnot. tauto. }
    assert (Ho1 : h1 !! l = Some o) by (by rewrite Hfr).
    assert (Hsub : assoc (toKey k) (obj_props o) = Some (prop h (VObj l) (toKey k))).
    { destruct (walk h (prop h (VObj l) (toKey k)) (common ++ [k1])) eqn:Hw;
        [done|].
      unfold prop, find_prop, own_prop in *. rewrite Ho in *.
      destruct (assoc (toKey k) (obj_props o)); [done|].
      simpl in Hw. by destruct common. }
    exists h1. split; [|split].
    + unfold get_prop. simpl. rewrite Hset. rewrite set_simple by done.
      by rewrite (put_prop_same _ _ _ _ o).
    + intros l' Hl' Hnot. rewrite not_elem_of_cons in Hnot.
      apply Hfr; [done | by destruct Hnot].
    + unfold get_prop. simpl.
      assert (Hp : prop h1 (VObj l) (toKey k) = prop h (VObj l) (toKey k)).
      { unfold prop, find_prop, own_prop. by rewrite Ho1, Ho. }
      by rewrite Hp.
Qed.

(** X10: [setValue] leaves the other branches alone.  Take two paths, their
    numbers exact, that run together through objects and then part on
    different keys.  Writing along the first, on segments that [lodash.set]
    writes as single keys and through objects that take their keys as plain
    writes, does not change what [getValue] reads along the second,
    provided no object is met twice on the way of the write, the key read
    where the paths part is not the [length] of an array, and the objects
    read after the parting are objects of the heap that the write does not
    pass through. *)
Theorem setValue_elsewhere (h : heap) (store : val) (common : list segment)
    (k1 k2 : segment) (tail1 tail2 : list segment) (v : val) :
  toKey k1 <> toKey k2 ->
  simple_path (common ++ k1 :: tail1) = true ->
  exact_path (common ++ k1 :: tail1) = true ->
  exact_path (common ++ k2 :: tail2) = true ->
  plain_walk h store (common ++ k1 :: tail1) = true ->
  plain_walk h store (common ++ [k2]) = true ->
  length (walk h store (common ++ [k1])) = S (length common) ->
  NoDup (walk h store (common ++ k1 :: tail1)) ->
  (forall node l,
      getValue h store (Many common) = Some node ->
      l ∈ reads h (prop h node (toKey k2)) tail2 ->
      l < length h /\ l ∉ walk h store (common ++ k1 :: tail1)) ->
  exists h',
    setValue h store (Many (common ++ k1 :: tail1)) v = Some (h', store)
    /\ getValue h' store (Many (common ++ k2 :: tail2))
       = getValue h store (Many (common ++ k2 :: tail2)).
Proof.
  intros Hne Hsimple _ _ Hplain _ Hlen Hnd Hreads.
  destruct (setValue_path_apart common h store v k1 k2 tail1 tail2 Hne Hsimple
              Hlen Hnd (fun l => plain_walk_bound h _ store l Hplain) Hreads)
    as (h' & Hset & _ & Hread).
  by exists h'.
Qed.

Lemma setValue_elsewhere_witness :
  exists h',
    setValue [plain [("a", VObj 1)]; plain [("x", VNum 1); ("y", VObj 2)];
              plain [("z", VStr "s")]] (VObj 0)
      (Many ([Str "a"] ++ Str "x" :: [Str "deep"])) (VBool true)
    = Some (h', VObj 0)
    /\ getValue h' (VObj 0) (Many ([Str "a"] ++ Str "y" :: [Str "z"]))
       = getValue [plain [("a", VObj 1)]; plain [("x", VNum 1); ("y", VObj 2)];
                   plain [("z", VStr "s")]] (VObj 0)
           (Many ([Str "a"] ++ Str "y" :: [Str "z"])).
Proof.
  apply (setValue_elsewhere
           [plain [("a", VObj 1)]; plain [("x", VNum 1); ("y", VObj 2)];
            plain [("z", VStr "s")]] (VObj 0) [Str "a"] (Str "x") (Str "y")
           [Str "deep"] [Str "z"] (VBool true)).
  - discriminate.
  - reflexivity.
  - reflexivity.
  - reflexivity.
  - reflexivity.
  - reflexivity.
  - reflexivity.
  - apply (bool_decide_unpack _). by vm_compute.
  - intros node l Hnode Hl. vm_compute in Hnode. injection Hnode as <-.
    apply list_elem_of_In in Hl. vm_compute in Hl.
    destruct Hl as [<-|[]]. split; [simpl; lia|].
    apply (bool_decide_unpack _). by vm_compute.
Defined.

(** ** [setValues] on stores that are no objects *)

Lemma internalSetValues_each_primitive merge h store values ks :
  nullish store = false -> Lodash.isObject store = false ->
  internalSetValues_each merge store values h ks = Done (h, store).
Proof.
  intros Hn Hobj. induction ks as [|key ks IH]; [done|].
  cbn [internalSetValues_each]. unfold get_prop. rewrite Hn. cbn [toKey].
  assert (isObject h (prop h store key) = false) as ->.
  { unfold isObject, prop, find_prop.
    destruct store as [| | | |s| |]; try done. simpl.
    destruct (string_member s key) as [w|] eqn:Hw; [|done]. simpl.
    unfold string_member in Hw.
    destruct (array_index key); [by destruct (String.get _ s); simplify_eq|].
    case_decide; by simplify_eq. }
  cbn [andb].
  assert (set_key h store key (prop h values key) = h) as ->; [|done].
  unfold set_key, Lodash.set. rewrite Hn, Hobj.
  by destruct store.
Qed.

(** X11: What [setValues] does with a store that is no object.  A store that
    is null or undefined is handed back untouched as long as no patch has a
    key, and the first patch with a key is a TypeError, the store being
    indexed before anything is written.  A boolean, a number or a string as
    the store is handed back, and nothing is written at all, for every list
    of patches none of which has the key [__proto__] (under that key the
    store reads the prototype of its wrapper, a plain object that a plain
    object of the patch would be merged into). *)
Theorem setValues_no_object (fuel : nat) (h : heap) (store : val) :
  (nullish store = true ->
   forall quiet patch rest,
     Forall (fun p => truthy p = false \/ own_keys h p = []) quiet ->
     truthy patch = true -> own_keys h patch <> [] ->
     setValues (S fuel) h store quiet = Done (h, store)
     /\ setValues (S fuel) h store (quiet ++ patch :: rest) = TypeError)
  /\ (nullish store = false -> Lodash.isObject store = false ->
      forall patches,
        Forall (fun p => "__proto__" ∉ own_keys h p) patches ->
        setValues (S fuel) h store patches = Done (h, store)).
Proof.
  split.
  - intros Hn quiet patch rest Hquiet Ht Hkeys.
    assert (Hq : forall tail,
               setValues (S fuel) h store (quiet ++ tail)
               = setValues (S fuel) h store tail).
    { intros tail. induction Hquiet as [|p quiet [Hp|Hp] _ IH];
        [done| |]; cbn [app setValues].
      - simpl. by rewrite Hp.
      - destruct (truthy p) eqn:Htp; [|simpl; by rewrite Htp].
        rewrite internalSetValues_truthy by done.
        assert ((if Mobx.isObservable h p then Mobx.keys else own_keys) h p
                = []) as -> by (by destruct (Mobx.isObservable h p)).
        done. }
    split.
    + rewrite <- (app_nil_r quiet). by rewrite Hq.
    + rewrite Hq. cbn [setValues].
      rewrite internalSetValues_truthy by done.
      assert ((if Mobx.isObservable h patch then Mobx.keys else own_keys) h patch
              = own_keys h patch) as -> by (by destruct (Mobx.isObservable h patch)).
      destruct (own_keys h patch) as [|key ks]; [done|]. simpl.
      by rewrite get_prop_nullish.
  - intros Hn Hobj patches _.
    induction patches as [|patch patches IH]; [done|].
    cbn [setValues].
    destruct (truthy patch) eqn:Ht.
    + rewrite internalSetValues_truthy by done.
      by rewrite internalSetValues_each_primitive.
    + simpl. rewrite Ht. simpl. exact IH.
Qed.

Lemma setValues_no_object_witness :
  (setValues 1 [plain []; plain [("a", VNum 1)]] VNull [VObj 0; VNum 0]
   = Done ([plain []; plain [("a", VNum 1)]], VNull)
   /\ setValues 1 [plain []; plain [("a", VNum 1)]] VNull
        ([VObj 0; VNum 0] ++ VObj 1 :: [VObj 0]) = TypeError)
  /\ setValues 1 [plain []; plain [("a", VNum 1)]] (VNum 5) [VObj 1; VStr "ab"]
     = Done ([plain []; plain [("a", VNum 1)]], VNum 5).
Proof.
  split.
  - apply (proj1 (setValues_no_object 0 [plain []; plain [("a", VNum 1)]]
                    VNull));
      [reflexivity | | reflexivity | discriminate].
    apply Forall_cons. split; [by right|].
    apply Forall_cons. split; [by left|]. apply Forall_nil_2.
  - apply (proj2 (setValues_no_object 0 [plain []; plain [("a", VNum 1)]]
                    (VNum 5))); [reflexivity | reflexivity |].
    apply Forall_cons. split; [apply (bool_decide_unpack _); by vm_compute|].
    apply Forall_cons. split; [apply (bool_decide_unpack _); by vm_compute|].
    apply Forall_nil_2.
Defined.

(** ** Patches without plain objects *)

Lemma assoc_fold_assoc_set (f : string -> val) ks : forall props k,
  default VUndefined
    (assoc k (fold_left (fun acc k' => assoc_set k' (f k') acc) ks props))
  = if bool_decide (k ∈ ks) then f k else default VUndefined (assoc k props).
Proof.
  induction ks as [|k0 ks IH]; intros props k; cbn [fold_left].
  - rewrite bool_decide_eq_false_2 by apply not_elem_of_nil. done.
  - rewrite IH. destruct (decide (k ∈ ks)) as [Hin|Hout].
    + rewrite !bool_decide_eq_true_2; [done | by apply elem_of_cons; right | done].
    + rewrite (bool_decide_eq_false_2 (k ∈ ks)) by done.
      destruct (decide (k = k0)) as [->|Hne].
      * rewrite bool_decide_eq_true_2 by (apply elem_of_cons; by left).
        by rewrite assoc_set_eq.
      * rewrite bool_decide_eq_false_2
          by (rewrite elem_of_cons; intros [?|?]; done).
        by rewrite assoc_set_ne.
Qed.

(** A value other than the object at [l] reads the same in every heap that
    differs only there. *)
Lemma own_keys_off h h' l v :
  v <> VObj l -> v <> VFun l ->
  (forall l', l' <> l -> h' !! l' = h !! l') ->
  own_keys h' v = own_keys h v /\ forall k, prop h' v k = prop h v k.
Proof.
  intros Ho Hf Hfr. unfold own_keys, prop, find_prop, own_prop.
  destruct v as [| | | | |lv|lv]; try done;
    rewrite Hfr by congruence; done.
Qed.

Lemma internalSetValues_each_flat merge h0 l o values :
  values <> VObj l -> values <> VFun l ->
  forall ks hi props,
    same_kinds h0 hi ->
    (forall l', l' <> l -> hi !! l' = h0 !! l') ->
    hi !! l = Some (Object (obj_proto o) (obj_observable o) props) ->
    (forall k, k ∈ ks ->
               isObject h0 (prop h0 values k) = false
               /\ obj_observable o || simple_segment (Str k) = true) ->
    exists h',
      internalSetValues_each merge (VObj l) values hi ks = Done (h', VObj l)
      /\ same_kinds h0 h'
      /\ (forall l', l' <> l -> h' !! l' = h0 !! l')
      /\ h' !! l
         = Some (Object (obj_proto o) (obj_observable o)
                   (fold_left (fun acc k => assoc_set k (prop h0 values k) acc)
                      ks props)).
Proof.
  intros Hvo Hvf. induction ks as [|key ks IH];
    intros hi props Hkinds Hfr Hl Hflat.
  - exists hi. simpl. done.
  - cbn [internalSetValues_each fold_left].
    unfold get_prop. cbn [nullish].
    destruct (own_keys_off h0 hi l values Hvo Hvf Hfr) as [_ Hprop].
    rewrite Hprop.
    destruct (Hflat key) as [Hval Hmode]; [apply elem_of_cons; by left|].
    rewrite (same_kinds_isObject h0 hi (prop h0 values key) Hkinds), Hval,
      andb_false_r.
    assert (Hset : set_key hi (VObj l) key (prop h0 values key)
                   = put_prop hi l key (prop h0 values key)).
    { unfold set_key, Mobx.isObservable. rewrite Hl. cbn [obj_observable].
      destruct (obj_observable o); [done|].
      by apply (set_simple hi l (Str key)). }
    rewrite Hset.
    apply IH.
    + eapply same_kinds_trans; [done | apply same_kinds_put_prop].
    + intros l' Hl'. rewrite put_prop_lookup_ne by done. by apply Hfr.
    + by rewrite (put_prop_lookup _ _ _ _ _ Hl).
    + intros k Hk. apply Hflat, elem_of_cons. by right.
Qed.

Lemma setValues_flat_from fuel h0 l o patches : forall hi props,
  same_kinds h0 hi ->
  (forall l', l' <> l -> hi !! l' = h0 !! l') ->
  hi !! l = Some (Object (obj_proto o) (obj_observable o) props) ->
  forallb (flat_patch h0 l) patches = true ->
  exists h' props',
    setValues (S fuel) hi (VObj l) patches = Done (h', VObj l)
    /\ same_kinds h0 h'
    /\ (forall l', l' <> l -> h' !! l' = h0 !! l')
    /\ h' !! l = Some (Object (obj_proto o) (obj_observable o) props')
    /\ forall k, default VUndefined (assoc k props')
                 = latest h0 patches k (default VUndefined (assoc k props)).
Proof.
  induction patches as [|patch patches IH]; intros hi props Hkinds Hfr Hl Hflat.
  - exists hi, props. done.
  - cbn [forallb] in Hflat. apply andb_true_iff in Hflat as [Hpatch Hflat].
    unfold flat_patch in Hpatch.
    apply andb_true_iff in Hpatch as [Hne Hkeys].
    apply andb_true_iff in Hne as [Hvo%negb_true_iff Hvf%negb_true_iff].
    apply bool_decide_eq_false in Hvo, Hvf.
    destruct (own_keys_off h0 hi l patch Hvo Hvf Hfr) as [Hown _].
    assert (Hcall : internalSetValues (S fuel) hi (VObj l) patch
                    = internalSetValues_each (internalSetValues fuel) (VObj l)
                        patch hi (own_keys h0 patch)).
    { destruct (truthy patch) eqn:Ht.
      - rewrite internalSetValues_truthy by done. rewrite <- Hown.
        by destruct (Mobx.isObservable hi patch).
      - simpl. rewrite Ht. simpl.
        assert (own_keys h0 patch = []) as ->; [|done].
        destruct patch as [| |b|n|s| |]; try done. simpl in Ht.
        apply negb_false_iff, bool_decide_eq_true in Ht. by subst. }
    destruct (internalSetValues_each_flat (internalSetValues fuel) h0 l o patch
                Hvo Hvf (own_keys h0 patch) hi props Hkinds Hfr Hl)
      as (h1 & Hrun & Hkinds1 & Hfr1 & Hl1).
    { rewrite forallb_forall in Hkeys. intros k Hk%list_elem_of_In.
      specialize (Hkeys k Hk). apply andb_true_iff in Hkeys as [Hv Hm].
      apply negb_true_iff in Hv. rewrite Hm, orb_true_r. done. }
    destruct (IH h1 _ Hkinds1 Hfr1 Hl1 Hflat)
      as (h' & props' & Hrest & Hkinds' & Hfr' & Hl' & Hlatest).
    exists h', props'. cbn [setValues]. rewrite Hcall, Hrun.
    split; [done|]. split; [done|]. split; [done|]. split; [done|].
    intros k. rewrite Hlatest. unfold latest. cbn [fold_left]. f_equal.
    apply assoc_fold_assoc_set.
Qed.

(** X12: Patches without plain objects are written key by key, and later
    patches win.  The store being a plain object that is no observable, and
    every patch a value other than the store whose own values are no plain
    objects (arrays, class instances, functions and primitives are none)
    and whose keys [lodash.set] writes as single keys, [setValues] returns
    the store itself; it writes into no other object; and afterwards every
    key holds the value of the last patch that has it, or what the store
    held if no patch has it.  Falsy patches count as patches without
    keys. *)
Theorem setValues_flat (fuel : nat) (h : heap) (l : loc)
    (props : list (string * val)) (patches : list val) :
  h !! l = Some (plain props) ->
  forallb (flat_patch h l) patches = true ->
  exists h',
    setValues (S fuel) h (VObj l) patches = Done (h', VObj l)
    /\ length h' = length h
    /\ (forall l', l' <> l -> h' !! l' = h !! l')
    /\ forall k, prop h' (VObj l) k = latest h patches k (prop h (VObj l) k).
Proof.
  intros Hl Hflat.
  destruct (setValues_flat_from fuel h l (plain props) patches h props
              (same_kinds_refl h))
    as (h' & props' & Hrun & [Hlen _] & Hfr & Hl' & Hk); [done..|].
  exists h'. split; [done|]. split; [done|]. split; [done|].
  intros k. unfold prop, find_prop, own_prop. rewrite Hl', Hl. apply Hk.
Qed.

Lemma setValues_flat_witness :
  exists h',
    setValues 1
      [plain [("a", VNum 1); ("keep", VNum 0); ("list", VObj 4)];
       plain [("b", VNum 2); ("list", VObj 3)];
       plain [("b", VNum 3); ("a", VStr "new")];
       array [VNum 1]; array []]
      (VObj 0) [VObj 1; VUndefined; VObj 2] = Done (h', VObj 0)
    /\ length h' = 5
    /\ (forall l', l' <> 0 ->
          h' !! l'
          = [plain [("a", VNum 1); ("keep", VNum 0); ("list", VObj 4)];
             plain [("b", VNum 2); ("list", VObj 3)];
             plain [("b", VNum 3); ("a", VStr "new")];
             array [VNum 1]; array []] !! l')
    /\ forall k,
         prop h' (VObj 0) k
         = latest
             [plain [("a", VNum 1); ("keep", VNum 0); ("list", VObj 4)];
              plain [("b", VNum 2); ("list", VObj 3)];
              plain [("b", VNum 3); ("a", VStr "new")];
              array [VNum 1]; array []]
             [VObj 1; VUndefined; VObj 2] k
             (prop
                [plain [("a", VNum 1); ("keep", VNum 0); ("list", VObj 4)];
                 plain [("b", VNum 2); ("list", VObj 3)];
                 plain [("b", VNum 3); ("a", VStr "new")];
                 array [VNum 1]; array []] (VObj 0) k).
Proof.
  apply (setValues_flat 0
           [plain [("a", VNum 1); ("keep", VNum 0); ("list", VObj 4)];
            plain [("b", VNum 2); ("list", VObj 3)];
            plain [("b", VNum 3); ("a", VStr "new")];
            array [VNum 1]; array []] 0
           [("a", VNum 1); ("keep", VNum 0); ("list", VObj 4)]
           [VObj 1; VUndefined; VObj 2]).
  - reflexivity.
  - by vm_compute.
Defined.

(** ** Writing again *)

Lemma walk_agree h h' path : forall v,
  (forall l, l ∈ walk h v path -> h' !! l = h !! l) ->
  walk h' v path = walk h v path.
Proof.
  induction path as [|s path IH]; intros v Hagree; [done|].
  destruct v as [| | | | | |l]; try done. simpl in *.
  assert (Hp : prop h' (VObj l) (toKey s) = prop h (VObj l) (toKey s)).
  { unfold prop, find_prop, own_prop.
    by rewrite Hagree by (apply elem_of_cons; by left). }
  rewrite Hp. f_equal. apply IH. intros l' Hl'. apply Hagree.
  apply elem_of_cons. by right.
Qed.

Lemma walk_trie h path : forall t s,
  laid h t -> tree_shaped t -> tfind t (keys_of path) = Some s ->
  NoDup (walk h (root t) path)
  /\ length (walk h (root t) path) = length path
  /\ forall l, l ∈ walk h (root t) path -> dom t l.
Proof.
  induction path as [|k path IH]; intros t s Hlaid Hts Hfind.
  - simpl. split; [constructor|]. split; [done|]. by intros l ?%elem_of_nil.
  - destruct t as [w|l kids]; [done|]. simpl in Hfind.
    destruct (assoc (toKey k) kids) as [t'|] eqn:Hk; [|done].
    apply laid_node in Hlaid as [Hl Hkids].
    apply tree_shaped_node in Hts as [Hts _].
    destruct (Hts _ _ Hk) as [Hts' Hnot].
    destruct (IH t' s (Hkids _ _ Hk) Hts' Hfind) as (Hnd & Hlen & Hdom).
    assert (Hp : prop h (VObj l) (toKey k) = root t').
    { unfold prop, find_prop, own_prop. rewrite Hl. simpl.
      by rewrite assoc_props_of, Hk. }
    simpl. rewrite Hp. split; [|split].
    + apply NoDup_cons. split; [|done]. intros Hin. by apply Hnot, Hdom.
    + simpl. by rewrite Hlen.
    + intros l' [->|Hl']%elem_of_cons.
      * apply dom_root.
      * apply dom_node. right. exists (toKey k), t'. split; [done|].
        by apply Hdom.
Qed.

(** [setValue] keeps the path one it can write again: afterwards the whole
    path runs through objects of the heap, pairwise distinct, each an object
    of the old way or a new one. *)
Lemma setValue_path_keeps path : forall h store v,
  simple_path path = true ->
  NoDup (walk h store path) ->
  (forall l, l ∈ walk h store path -> l < length h) ->
  exists h' r,
    setValue_path h store path v = Some (h', r)
    /\ length h <= length h'
    /\ (forall l, l < length h -> l ∉ walk h store path -> h' !! l = h !! l)
    /\ NoDup (walk h' r path)
    /\ length (walk h' r path) = length path
    /\ forall l, l ∈ walk h' r path ->
                 l < length h' /\ (l ∈ walk h store path \/ length h <= l).
Proof.
  induction path as [|s path IH]; intros h store v Hsimple Hnd Hlt.
  - exists h, v. simpl. split; [done|]. split; [done|]. split; [done|].
    split; [constructor|]. split; [done|]. by intros l ?%elem_of_nil.
  - simpl in Hsimple. apply andb_true_iff in Hsimple as [Hs Hsimple].
    destruct (not_object store) eqn:Hstore.
    + destruct (setValue_path_fresh (s :: path) h store v Hstore)
        as (h' & Hset & Hlaid & Hts & Hb & Hlen & Hfr).
      destruct (walk_trie h' (s :: path) _ _ Hlaid Hts (chain_leaf _ _ _))
        as (Hnd' & Hlen' & Hdom).
      exists h', (root (chain (length h) (keys_of (s :: path)) v)).
      split; [done|]. split; [done|]. split; [by intros l Hl _; apply Hfr|].
      split; [done|]. split; [done|].
      intros l Hl. specialize (Hb l (Hdom l Hl)). split; [lia|]. right. lia.
    + destruct store as [| | | | | |l]; try done. simpl in Hnd, Hlt.
      apply NoDup_cons in Hnd as [Hl Hnd].
      assert (Hll : l < length h) by (apply Hlt, elem_of_cons; by left).
      destruct (lookup_lt_is_Some_2 h l Hll) as [o Ho].
      destruct (IH h (prop h (VObj l) (toKey s)) v Hsimple Hnd)
        as (h1 & r1 & Hset & Hlen & Hfr & Hnd1 & Hlen1 & Hin1).
      { intros l' Hl'. apply Hlt, elem_of_cons. by right. }
      assert (Ho1 : h1 !! l = Some o) by (by rewrite Hfr).
      assert (Hp : prop (put_prop h1 l (toKey s) r1) (VObj l) (toKey s) = r1).
      { unfold prop, find_prop, own_prop.
        rewrite (put_prop_lookup _ _ _ _ _ Ho1). simpl. by rewrite assoc_set_eq. }
      assert (Hnotin : l ∉ walk h1 r1 path).
      { intros Hin. destruct (Hin1 l Hin) as [_ [?|?]]; [done | lia]. }
      assert (Hw : walk (put_prop h1 l (toKey s) r1) r1 path = walk h1 r1 path).
      { apply walk_agree. intros l' Hl'. apply put_prop_lookup_ne.
        intros <-. done. }
      exists (put_prop h1 l (toKey s) r1), (VObj l).
      split; [|split; [|split; [|split; [|split]]]].
      * simpl. unfold get_prop. simpl. rewrite Hset.
        by rewrite set_simple.
      * rewrite put_prop_length. lia.
      * intros l' Hl' Hnot. simpl in Hnot. rewrite not_elem_of_cons in Hnot.
        rewrite put_prop_lookup_ne by (by intros <-; destruct Hnot).
        apply Hfr; [done | by destruct Hnot].
      * simpl. rewrite Hp, Hw. apply NoDup_cons. done.
      * simpl. rewrite Hp, Hw. simpl. by rewrite Hlen1.
      * simpl. rewrite Hp, Hw, put_prop_length.
        intros l' [->|Hl']%elem_of_cons.
        -- split; [lia|]. left. apply elem_of_cons. by left.
        -- destruct (Hin1 l' Hl') as [? [?|?]]; (split; [done|]);
             [left; apply elem_of_cons; by right | by right].
Qed.

(** X16: The last write wins.  On a path that is not empty, whose segments
    [lodash.set] writes as single keys and whose numbers are exact, the
    objects on the way being pairwise distinct and each taking its key as a
    plain write (plain objects and arrays, no observables, not the [length]
    of an array), two calls of [setValue] with the same path, the second on
    what the first returned, return the same store, and [getValue] then
    reads the second value there. *)
Theorem setValue_overwrite (h : heap) (store : val) (headPath : segment)
    (tailPath : list segment) (v1 v2 : val) :
  simple_path (headPath :: tailPath) = true ->
  exact_path (headPath :: tailPath) = true ->
  plain_walk h store (headPath :: tailPath) = true ->
  NoDup (walk h store (headPath :: tailPath)) ->
  exists h1 h2 r,
    setValue h store (Many (headPath :: tailPath)) v1 = Some (h1, r)
    /\ setValue h1 r (Many (headPath :: tailPath)) v2 = Some (h2, r)
    /\ getValue h2 r (Many (headPath :: tailPath)) = Some v2.
Proof.
  intros Hsimple _ Hplain Hnd.
  destruct (setValue_path_keeps _ h store v1 Hsimple Hnd
              (fun l => plain_walk_bound h _ store l Hplain))
    as (h1 & r & Hset1 & _ & _ & Hnd1 & Hlen1 & Hin1).
  destruct (setValue_path_read_back _ h1 r v2 Hsimple Hnd1)
    as (h2 & r2 & Hset2 & _ & _ & Hread).
  { intros l Hl. by apply Hin1. }
  destruct (setValue_path_in_place _ h1 r v2 Hsimple)
    as (h2' & r2' & Hset2' & _ & _ & Hr).
  rewrite Hset2 in Hset2'. injection Hset2' as <- <-.
  assert (r2 = r) as ->.
  { rewrite Hr by done. destruct r; try done.
    all: simpl in Hlen1; done. }
  exists h1, h2, r. split; [done|]. split; [done|]. by apply Hread.
Qed.

Lemma setValue_overwrite_witness :
  exists h1 h2 r,
    setValue [plain [("a", VNum 1)]] (VObj 0) (Many [Str "a"; Num 0]) (VStr "x")
    = Some (h1, r)
    /\ setValue h1 r (Many [Str "a"; Num 0]) (VStr "y") = Some (h2, r)
    /\ getValue h2 r (Many [Str "a"; Num 0]) = Some (VStr "y").
Proof.
  apply (setValue_overwrite [plain [("a", VNum 1)]] (VObj 0) (Str "a") [Num 0]
           (VStr "x") (VStr "y")).
  - reflexivity.
  - reflexivity.
  - reflexivity.
  - apply (bool_decide_unpack _). by vm_compute.
Defined.
